(** * pymltools.tf_utils: the masked Adam optimizer and the estimator model functions

    A shallow embedding of [tf_optimizer.py] and [tf_model_fn.py].

    - [Tensor], [TfOptimizer]: [MaskedAdamOptimizer._apply_sparse_shared] as
      a computation over the store that holds the optimized variable and its
      two Adam slots, in exact (real) arithmetic.
    - [TfGraph]: the same method as construction of the dataflow graph, and
      the orders in which a session may run the graph.
    - [PyClass]: the class statement of [MaskedAdamOptimizer].
    - [TfModelFn]: the model functions of [tf_triplet_loss_model_fn] and
      [tf_softmax_model_fn] as computations over the graph under
      construction.

    The definitions come first; the facts about them follow, one module of
    facts per module of definitions. *)

From Stdlib Require Import Reals Lra.
From stdpp Require Import base option list strings gmap.

Set Warnings "-register-all".

(** ** Tensors *)

Module Tensor.
(** A dense tensor of shape [[n] + S] is the list of its [n] slices along the
    first dimension; [J] enumerates the positions of the shape [S], so a slice
    is a map from [J] to scalars and two slices always agree in shape. *)
Abbreviation slice J := (J → R).
Abbreviation tensor J := (list (slice J)).

Section Slices.
Context {J : Type}.
Abbreviation slice := (slice J).
Abbreviation tensor := (tensor J).

(** [t * c] and [c * t] with a scalar [c] broadcast over [t]. *)
Definition mul_scalar (t : tensor) (c : R) : tensor :=
  (λ s j, s j * c)%R <$> t.
Definition scalar_mul (c : R) (t : tensor) : tensor :=
  (λ s j, c * s j)%R <$> t.
(** [t + c] with a scalar [c] broadcast over [t]. *)
Definition add_scalar (t : tensor) (c : R) : tensor :=
  (λ s j, s j + c)%R <$> t.
(** [t1 * t2] and [t1 / t2], element by element.  The framework rejects
    operands of different shapes; the update only ever multiplies a tensor
    with itself and divides two tensors gathered at the same indices. *)
Definition mul (t1 t2 : tensor) : tensor :=
  zip_with (λ a b j, a j * b j)%R t1 t2.
Definition div (t1 t2 : tensor) : tensor :=
  zip_with (λ a b j, a j / b j)%R t1 t2.
(** [math_ops.sqrt], element by element. *)
Definition tsqrt (t : tensor) : tensor :=
  (λ s j, sqrt (s j)) <$> t.
(** [t1 - t2], element by element. *)
Definition sub (t1 t2 : tensor) : tensor :=
  zip_with (λ a b j, a j - b j)%R t1 t2.

Definition slice_add (a b : slice) : slice := λ j, (a j + b j)%R.

(** [scatter_add(ref, indices, updates)]: for each position [k] of
    [indices], the slice [updates[k]] is added to [ref[indices[k]]]; an
    index met twice receives both updates.  An index outside [ref], or
    [updates] and [indices] of different lengths, is an error. *)
Fixpoint scatter_add_rows (t : tensor) (indices : list nat) (updates : tensor)
  : option tensor :=
  match indices, updates with
  | [], [] => Some t
  | i :: indices', u :: updates' =>
      match t !! i with
      | Some row => scatter_add_rows (<[i := slice_add row u]> t) indices' updates'
      | None => None
      end
  | _, _ => None
  end.

(** [array_ops.gather(params, indices)]: the slices of [params] at
    [indices], in the order of [indices]; an index outside [params] is an
    error. *)
Definition gather (params : tensor) (indices : list nat) : option tensor :=
  mapM (λ i, params !! i) indices.
End Slices.
End Tensor.

(** ** tf_optimizer.py *)

Module TfOptimizer.
Import Tensor.

(** The variables an update touches: the optimized variable [var] and its
    slots [self.get_slot(var, "m")] and [self.get_slot(var, "v")]. *)
Inductive ref : Type := Var | SlotM | SlotV.

Section Update.
Context {J : Type}.

Record store : Type := Store {
  st_var : tensor J;
  st_m : tensor J;
  st_v : tensor J
}.

Definition read (r : ref) (s : store) : tensor J :=
  match r with
  | Var => st_var s
  | SlotM => st_m s
  | SlotV => st_v s
  end.

Definition write (r : ref) (t : tensor J) (s : store) : store :=
  match r with
  | Var => Store t (st_m s) (st_v s)
  | SlotM => Store (st_var s) t (st_v s)
  | SlotV => Store (st_var s) (st_m s) t
  end.

(** A state-changing operation that can fail. *)
Definition Op (A : Type) : Type := store → option (A * store).

Definition ret {A} (a : A) : Op A := λ s, Some (a, s).
Definition bind {A B} (c : Op A) (k : A → Op B) : Op B :=
  λ s, match c s with
       | Some (a, s') => k a s'
       | None => None
       end.
Definition lift {A} (o : option A) : Op A :=
  λ s, match o with Some a => Some (a, s) | None => None end.
Definition value (r : ref) : Op (tensor J) := λ s, Some (read r s, s).

Notation "'let*' x ':=' c 'in' k" := (bind c (λ x, k))
  (at level 10, x name, c at level 100, k at level 200).

(** The state operations yield the variable they have written: what they
    return aliases the variable, and an operation that later takes it as a
    tensor reads what the variable holds by then. *)

(** [state_ops.assign(ref, value)]. *)
Definition assign (r : ref) (t : tensor J) : Op ref :=
  λ s, Some (r, write r t s).

(** [state_ops.assign_sub(ref, value)]: subtracts [value] from the whole
    variable. *)
Definition assign_sub (r : ref) (t : tensor J) : Op ref :=
  λ s, Some (r, write r (sub (read r s) t) s).

(** The [scatter_add] argument the framework passes to
    [_apply_sparse_shared]: [state_ops.scatter_add] on the variable. *)
Definition scatter_add (r : ref) (indices : list nat) (updates : tensor J)
  : Op ref :=
  λ s, match scatter_add_rows (read r s) indices updates with
       | Some t' => Some (r, write r t' s)
       | None => None
       end.

(** [array_ops.gather(params, indices)] on the output of a state
    operation. *)
Definition array_ops_gather (params : ref) (indices : list nat)
  : Op (tensor J) :=
  λ s, lift (gather (read params s) indices) s.

(** The optimizer's hyper-parameter tensors and beta accumulators, cast to
    the variable's dtype. *)
Record AdamOptimizer : Type := {
  _lr_t : R;
  _beta1_t : R;
  _beta2_t : R;
  _epsilon_t : R;
  _beta1_power : R;
  _beta2_power : R
}.

Definition _get_beta_accumulators (self : AdamOptimizer) : R * R :=
  (_beta1_power self, _beta2_power self).

(** [MaskedAdamOptimizer._apply_sparse_shared(self, grad, var, indices,
    scatter_add)]. *)
Definition _apply_sparse_shared (self : AdamOptimizer) (grad : tensor J)
    (indices : list nat)
    (scatter_add : ref → list nat → tensor J → Op ref) : Op unit :=
  let '(beta1_power, beta2_power) := _get_beta_accumulators self in
  let lr_t := _lr_t self in
  let beta1_t := _beta1_t self in
  let beta2_t := _beta2_t self in
  let epsilon_t := _epsilon_t self in
  let lr := (lr_t * sqrt (1 - beta2_power) / (1 - beta1_power))%R in
  let* m := value SlotM in
  let m_scaled_g_values := mul_scalar grad (1 - beta1_t) in
  let* m_t := assign SlotM (mul_scalar m beta1_t) in
  let* m_t := scatter_add SlotM indices m_scaled_g_values in
  let* v := value SlotV in
  let v_scaled_g_values := mul_scalar (mul grad grad) (1 - beta2_t) in
  let* v_t := assign SlotV (mul_scalar v beta2_t) in
  let* v_t := scatter_add SlotV indices v_scaled_g_values in
  let* gather_m_t := array_ops_gather m_t indices in
  let* gather_v_t := array_ops_gather v_t indices in
  let gather_v_sqrt := tsqrt gather_v_t in
  let* var_update := scatter_add Var indices
    (div (scalar_mul (- lr) gather_m_t) (add_scalar gather_v_sqrt epsilon_t)) in
  ret tt.

(** Modelled from the spec: the framework's [adam.AdamOptimizer.
    _apply_sparse_shared] is not under src/.  It is Adam's published sparse
    update: the same decay and scatter-add of the moment accumulators,
    followed by a dense [assign_sub] of [lr * m_t / (sqrt(v_t) + epsilon)]
    over the whole variable.  The slots have the shape of the variable
    ([slots_shaped] below), so the element-wise operations meet tensors of
    one shape. *)
Definition canonical_apply_sparse_shared (self : AdamOptimizer)
    (grad : tensor J) (indices : list nat)
    (scatter_add : ref → list nat → tensor J → Op ref) : Op unit :=
  let '(beta1_power, beta2_power) := _get_beta_accumulators self in
  let lr_t := _lr_t self in
  let beta1_t := _beta1_t self in
  let beta2_t := _beta2_t self in
  let epsilon_t := _epsilon_t self in
  let lr := (lr_t * sqrt (1 - beta2_power) / (1 - beta1_power))%R in
  let* m := value SlotM in
  let m_scaled_g_values := mul_scalar grad (1 - beta1_t) in
  let* m_t := assign SlotM (mul_scalar m beta1_t) in
  let* m_t := scatter_add SlotM indices m_scaled_g_values in
  let* v := value SlotV in
  let v_scaled_g_values := mul_scalar (mul grad grad) (1 - beta2_t) in
  let* v_t := assign SlotV (mul_scalar v beta2_t) in
  let* v_t := scatter_add SlotV indices v_scaled_g_values in
  let* v_t := value v_t in
  let v_sqrt := tsqrt v_t in
  let* m_t := value m_t in
  let* var_update := assign_sub Var
    (div (scalar_mul lr m_t) (add_scalar v_sqrt epsilon_t)) in
  ret tt.

(** The inputs on which the update runs through: one gradient slice per
    index, and every index inside the variable and both of its slots. *)
Definition well_shaped (s : store) (grad : tensor J) (indices : list nat)
  : Prop :=
  length grad = length indices ∧
  Forall (λ i, i < length (st_m s)) indices ∧
  Forall (λ i, i < length (st_v s)) indices ∧
  Forall (λ i, i < length (st_var s)) indices.

(** The framework creates each slot with the shape of its variable. *)
Definition slots_shaped (s : store) : Prop :=
  length (st_m s) = length (st_var s) ∧ length (st_v s) = length (st_var s).

(** Two outcomes are the same result when both fail, or both succeed with
    stores that hold the same scalars everywhere. *)
Definition tensor_eq (t1 t2 : tensor J) : Prop :=
  Forall2 (λ a b, ∀ j, a j = b j) t1 t2.
Definition same_result (o1 o2 : option (unit * store)) : Prop :=
  match o1, o2 with
  | Some (_, s1), Some (_, s2) =>
      tensor_eq (st_var s1) (st_var s2) ∧ tensor_eq (st_m s1) (st_m s2) ∧
      tensor_eq (st_v s1) (st_v s2)
  | None, None => True
  | _, _ => False
  end.
End Update.
Global Arguments store : clear implicits.
Global Arguments Op : clear implicits.

(** A small concrete update: a variable of two scalar slices, of which the
    gradient touches the first. *)
Module Demo.
Definition self : AdamOptimizer :=
  {| _lr_t := 1; _beta1_t := 1 / 2; _beta2_t := 3 / 4; _epsilon_t := 1;
     _beta1_power := 1 / 2; _beta2_power := 3 / 4 |}.
Definition s : store unit :=
  Store [λ _, 1%R; λ _, 1%R] [λ _, 0%R; λ _, 1%R] [λ _, 0%R; λ _, 0%R].
Definition grad : tensor unit := [λ _, 0%R].
Definition indices : list nat := [0].
End Demo.
End TfOptimizer.

(** ** The operations [_apply_sparse_shared] adds to the graph

    The method does not run the update: it adds operations to the dataflow
    graph, and the session later runs them in any order that respects their
    data inputs and control inputs.  [TfGraph] embeds the graph construction,
    and the orders in which the session may fire the operations. *)

Module TfGraph.
Import TfOptimizer.

Inductive op : Type :=
  | Input (name : string)   (* a tensor or variable handle given to the method *)
  | Const (name : string)   (* a Python number converted to a tensor *)
  | Cast | Sqrt | Neg | Sub | Mul | Div | Add
  | Assign (r : ref)
  | ScatterAdd (r : ref)
  | Gather
  | Group.

Global Instance ref_eq_dec : EqDecision ref.
Proof. solve_decision. Defined.
Global Instance op_eq_dec : EqDecision op.
Proof. solve_decision. Defined.

(** An operation of the graph; operations are named by their position in
    the order of creation. *)
Record node : Type := Node {
  n_op : op;
  n_inputs : list nat;
  n_control : list nat
}.

Definition graph : Type := list node.

(** Graph construction threads the graph built so far and the control
    dependencies of the enclosing [with ops.control_dependencies(...)]
    blocks. *)
Definition Build (A : Type) : Type := graph * list nat → A * (graph * list nat).

Definition ret {A} (a : A) : Build A := λ st, (a, st).
Definition bind {A B} (c : Build A) (k : A → Build B) : Build B :=
  λ st, let '(a, st') := c st in k a st'.

Notation "'let*' x ':=' c 'in' k" := (bind c (λ x, k))
  (at level 10, x name, c at level 100, k at level 200).

(** Every new operation takes the control dependencies in force.  The
    framework leaves out a control input that a data input of the operation
    already implies; the graph here keeps it, which orders no less. *)
Definition add_op (o : op) (inputs : list nat) : Build nat :=
  λ '(g, deps), (length g, (g ++ [Node o inputs deps], deps)).

(** [with ops.control_dependencies(control_inputs): body]. *)
Definition control_dependencies {A} (control_inputs : list nat) (body : Build A)
  : Build A :=
  λ '(g, deps),
    let '(a, (g', _)) := body (g, deps ++ control_inputs) in (a, (g', deps)).

(** [control_flow_ops.group] of a list of operations: an operation without output that has
    finished once all of [inputs] have. *)
Definition group (inputs : list nat) : Build nat :=
  λ '(g, deps), (length g, (g ++ [Node Group [] (deps ++ inputs)], deps)).

(** The [scatter_add] argument the framework passes:
    [state_ops.scatter_add(x, i, v)]. *)
Definition scatter_add (r : ref) (x i v : nat) : Build nat :=
  add_op (ScatterAdd r) [x; i; v].

(** The tensors and variable handles the method is given, in the order in
    which the method first names them. *)
Record handles : Type := Handles {
  h_beta1_power : nat; h_beta2_power : nat;
  h_lr_t : nat; h_beta1_t : nat; h_beta2_t : nat; h_epsilon_t : nat;
  h_grad : nat; h_var : nat; h_indices : nat;
  h_m : nat; h_v : nat
}.

Definition inputs : Build handles :=
  let* beta1_power := add_op (Input "beta1_power") [] in
  let* beta2_power := add_op (Input "beta2_power") [] in
  let* lr_t := add_op (Input "_lr_t") [] in
  let* beta1_t := add_op (Input "_beta1_t") [] in
  let* beta2_t := add_op (Input "_beta2_t") [] in
  let* epsilon_t := add_op (Input "_epsilon_t") [] in
  let* grad := add_op (Input "grad") [] in
  let* var := add_op (Input "var") [] in
  let* indices := add_op (Input "indices") [] in
  let* m := add_op (Input "m") [] in
  let* v := add_op (Input "v") [] in
  ret (Handles beta1_power beta2_power lr_t beta1_t beta2_t epsilon_t
         grad var indices m v).

(** [MaskedAdamOptimizer._apply_sparse_shared(self, grad, var, indices,
    scatter_add)], as graph construction: one operation per call of the
    source.  The framework may create fewer or more for a call (a cast to the
    dtype a tensor already has creates none, a gather adds a constant for its
    axis); how many operations there are is not what this graph is for.  Its
    use is the data and control inputs of the state operations and of the
    gathers, which are those the source gives them. *)
Definition _apply_sparse_shared (h : handles)
    (scatter_add : ref → nat → nat → nat → Build nat) : Build nat :=
  let grad := h_grad h in
  let indices := h_indices h in
  let* beta1_power := add_op Cast [h_beta1_power h] in
  let* beta2_power := add_op Cast [h_beta2_power h] in
  let* lr_t := add_op Cast [h_lr_t h] in
  let* beta1_t := add_op Cast [h_beta1_t h] in
  let* beta2_t := add_op Cast [h_beta2_t h] in
  let* epsilon_t := add_op Cast [h_epsilon_t h] in
  (* lr = (lr_t * sqrt(1 - beta2_power) / (1 - beta1_power)) *)
  let* one := add_op (Const "1") [] in
  let* x := add_op Sub [one; beta2_power] in
  let* x := add_op Sqrt [x] in
  let* x := add_op Mul [lr_t; x] in
  let* one := add_op (Const "1") [] in
  let* y := add_op Sub [one; beta1_power] in
  let* lr := add_op Div [x; y] in
  (* m_t = beta1 * m + (1 - beta1) * g_t *)
  let m := h_m h in
  let* one := add_op (Const "1") [] in
  let* x := add_op Sub [one; beta1_t] in
  let* m_scaled_g_values := add_op Mul [grad; x] in
  let* x := add_op Mul [m; beta1_t] in
  let* m_t := add_op (Assign SlotM) [m; x] in
  let* m_t := control_dependencies [m_t]
                (scatter_add SlotM m indices m_scaled_g_values) in
  (* v_t = beta2 * v + (1 - beta2) * (g_t * g_t) *)
  let v := h_v h in
  let* x := add_op Mul [grad; grad] in
  let* one := add_op (Const "1") [] in
  let* y := add_op Sub [one; beta2_t] in
  let* v_scaled_g_values := add_op Mul [x; y] in
  let* x := add_op Mul [v; beta2_t] in
  let* v_t := add_op (Assign SlotV) [v; x] in
  let* v_t := control_dependencies [v_t]
                (scatter_add SlotV v indices v_scaled_g_values) in
  let* gather_m_t := add_op Gather [m_t; indices] in
  let* gather_v_t := add_op Gather [v_t; indices] in
  let* gather_v_sqrt := add_op Sqrt [gather_v_t] in
  let* x := add_op Neg [lr] in
  let* x := add_op Mul [x; gather_m_t] in
  let* y := add_op Add [gather_v_sqrt; epsilon_t] in
  let* x := add_op Div [x; y] in
  let* var_update := scatter_add Var (h_var h) indices x in
  group [var_update; m_t; v_t].

(** The graph of one sparse update, built from nothing. *)
Definition update_graph : graph :=
  fst (snd ((let* h := inputs in _apply_sparse_shared h scatter_add) ([], []))).

(** The session fires an operation once, and only after all its data inputs
    and control inputs have fired.  [runnable g fired sched] tells whether
    the operations of [sched] can fire in that order after those of
    [fired]. *)
Fixpoint runnable (g : graph) (fired : list nat) (sched : list nat) : bool :=
  match sched with
  | [] => true
  | id :: sched' =>
      match g !! id with
      | Some n =>
          forallb (λ d, bool_decide (d ∈ fired)) (n_inputs n ++ n_control n)
          && bool_decide (id ∉ fired)
          && runnable g (id :: fired) sched'
      | None => false
      end
  end.

(** The order in which the method created the operations. *)
Definition program_order (g : graph) : list nat := seq 0 (length g).

(** [a] fires before [b] in [sched]. *)
Definition fires_before (sched : list nat) (a b : nat) : Prop :=
  ∃ p q, sched !! p = Some a ∧ sched !! q = Some b ∧ p < q.

(** The operations of a graph that carry the operator [o]. *)
Definition has_op (g : graph) (o : op) (id : nat) : Prop :=
  ∃ n, g !! id = Some n ∧ n_op n = o.

End TfGraph.

(** ** The class statement of [MaskedAdamOptimizer]

    [class MaskedAdamOptimizer(adam.AdamOptimizer)] has one [def] in its
    body.  [PyClass] embeds what a class statement with one base does to
    attribute lookup and to calls through [self]. *)

Module PyClass.
Section Classes.
(** What a bound method does when called. *)
Context {B : Type}.

(** A function defined in a class body: what it does depends on what the
    attributes of [self] do, which is only known once the class of [self]
    is. *)
Definition method : Type := (string → option B) → B.

(** A class: [object], or a base and the functions the class body
    defines. *)
Inductive class : Type :=
  | object
  | Class (base : class) (body : gmap string method).

(** Attribute lookup on a class: the class body first, then the base. *)
Fixpoint getattr (c : class) (attr : string) : option method :=
  match c with
  | object => None
  | Class base body =>
      match body !! attr with
      | Some f => Some f
      | None => getattr base attr
      end
  end.

(** What [self.attr] does on an instance of [c], with calls through
    [self] nested at most [depth] deep. *)
Fixpoint bound (depth : nat) (c : class) (attr : string) : option B :=
  match depth with
  | O => None
  | S depth' => (λ f : method, f (bound depth' c)) <$> getattr c attr
  end.

(** [class MaskedAdamOptimizer(adam.AdamOptimizer)], whose body defines
    [_apply_sparse_shared] and nothing else. *)
Definition MaskedAdamOptimizer (adam_AdamOptimizer : class)
    (_apply_sparse_shared : method) : class :=
  Class adam_AdamOptimizer
    {[ "_apply_sparse_shared" := _apply_sparse_shared ]}.

(** A function is outside a set [path] of attribute names when what it
    does is the same whatever the attributes of [path] do. *)
Definition outside (path : string → bool) (f : method) : Prop :=
  ∀ self1 self2 : string → option B,
    (∀ a, path a = false → self1 a = self2 a) → f self1 = f self2.
End Classes.
Global Arguments method : clear implicits.
Global Arguments class : clear implicits.

(** A small base class: [_apply_sparse] goes through
    [self._apply_sparse_shared], [_apply_dense] does not. *)
Module Demo.
Definition adam_AdamOptimizer : class nat :=
  Class object
    (<[ "_apply_dense" := λ _, 1 ]>
     (<[ "_apply_sparse" := λ self, default 0 (self "_apply_sparse_shared") ]>
      {[ "_apply_sparse_shared" := λ _, 2 ]})).
Definition sparse_path (a : string) : bool :=
  bool_decide (a = "_apply_sparse_shared") || bool_decide (a = "_apply_sparse").
End Demo.
End PyClass.

(** ** tf_model_fn.py

    The model functions run once per mode to build the graph of an
    estimator.  They are embedded as computations over the graph under
    construction that can raise. *)

Module TfModelFn.

(** [tf.estimator.ModeKeys]. *)
Inductive ModeKeys : Type := TRAIN | EVAL | PREDICT.

(** Modelled from the spec: [project_demo.OptimizerType] is not under src/.
    The model functions name its members [sgd] and [adam]; any further
    member is kept as [other_optimizer]. *)
Inductive OptimizerType : Type :=
  | sgd
  | adam
  | other_optimizer (name : string).

Inductive dtype : Type := int64.

Inductive exn : Type :=
  | KeyError (key : string)   (* [features[key]] without such a key *)
  | ValueError.               (* an operation applied to [None] *)

Global Instance ModeKeys_eq_dec : EqDecision ModeKeys.
Proof. solve_decision. Defined.
Global Instance OptimizerType_eq_dec : EqDecision OptimizerType.
Proof. solve_decision. Defined.

Section ModelFn.
(** [params] is the caller's; the model functions read [params.margin] and
    hand [params] to the network. *)
Context {Params EndPoints Margin : Type}.
Context (margin : Params → Margin).

(** The operations of the graph the model functions deal with, each named
    after the framework call that creates it.  [given] stands for a tensor
    that comes from outside: an entry of [features], the labels, an output
    of the network, a learning rate. *)
Inductive node : Type :=
  | given (name : string)
  | tf_norm (x : node) (axis : Z)
  | tf_reduce_mean (x : node)
  | tf_nn_l2_normalize (x : node) (axis : Z)
  | tf_cast (x : node) (d : dtype)
  | tf_argmax (x : node) (axis : Z)
  | tf_nn_softmax (x : node)
  | batch_hard_triplet_loss (labels embeddings : node) (margin : Margin)
      (squared : bool)
  | tf_losses_sparse_softmax_cross_entropy (labels logits : node)
  | tf_summary_scalar_op (name : string) (x : node)
  | tf_metrics_mean (x : node)
  | tf_metrics_accuracy (labels predictions : node)
  | GradientDescentOptimizer_minimize (learning_rate loss : node)
      (global_step : option node) (control_inputs : list node)
  | AdamOptimizer_minimize (learning_rate loss : node)
      (global_step : option node) (control_inputs : list node).

(** [tf.train.GradientDescentOptimizer(learning_rate=...)] and
    [tf.train.AdamOptimizer(learning_rate=...)]. *)
Inductive Optimizer : Type :=
  | GradientDescentOptimizer (learning_rate : node)
  | AdamOptimizer (learning_rate : node).

(** The graph under construction: the operations created so far, oldest
    first, the scalar summaries, the [UPDATE_OPS] collection, the global
    step if one was created, and what was handed to [logger.debug]. *)
Record Graph : Type := {
  g_ops : list node;
  g_summaries : list (string * node);
  g_update_ops : list node;
  g_global_step : option node;
  g_debug : list (list node)
}.

Definition Tf (A : Type) : Type := Graph → exn + A * Graph.

Definition ret {A} (a : A) : Tf A := λ g, inr (a, g).
Definition bind {A B} (c : Tf A) (k : A → Tf B) : Tf B :=
  λ g, match c g with
       | inr (a, g') => k a g'
       | inl e => inl e
       end.
Definition raise {A} (e : exn) : Tf A := λ _, inl e.

Notation "'let*' x ':=' c 'in' k" := (bind c (λ x, k))
  (at level 10, x name, c at level 100, k at level 200).
Notation "'let*' ' p ':=' c 'in' k" := (bind c (λ x, let 'p := x in k))
  (at level 10, p strict pattern, c at level 100, k at level 200).

(** Creating an operation adds it to the graph. *)
Definition create (n : node) : Tf node :=
  λ g, inr (n, {| g_ops := g_ops g ++ [n];
                  g_summaries := g_summaries g;
                  g_update_ops := g_update_ops g;
                  g_global_step := g_global_step g;
                  g_debug := g_debug g |}).

(** An operation on a tensor argument, which raises on [None]. *)
Definition tensor_arg (x : option node) : Tf node :=
  match x with
  | Some t => ret t
  | None => raise ValueError
  end.

(** [tf.summary.scalar(name, tensor)]: a summary operation, which also
    joins the collection of summaries. *)
Definition tf_summary_scalar (name : string) (t : node) : Tf unit :=
  λ g, inr (tt, {| g_ops := g_ops g ++ [tf_summary_scalar_op name t];
                   g_summaries := g_summaries g ++ [(name, t)];
                   g_update_ops := g_update_ops g;
                   g_global_step := g_global_step g;
                   g_debug := g_debug g |}).

(** [tf.get_collection(tf.GraphKeys.UPDATE_OPS)]. *)
Definition tf_get_collection_UPDATE_OPS : Tf (list node) :=
  λ g, inr (g_update_ops g, g).

(** [tf.train.get_global_step()]. *)
Definition tf_train_get_global_step : Tf (option node) :=
  λ g, inr (g_global_step g, g).

(** [logger.debug("update ops: {}".format(ops))]. *)
Definition logger_debug (ops : list node) : Tf unit :=
  λ g, inr (tt, {| g_ops := g_ops g;
                   g_summaries := g_summaries g;
                   g_update_ops := g_update_ops g;
                   g_global_step := g_global_step g;
                   g_debug := g_debug g ++ [ops] |}).

(** [features[key]]. *)
Definition getitem (features : gmap string node) (key : string) : Tf node :=
  match features !! key with
  | Some t => ret t
  | None => raise (KeyError key)
  end.

(** [optimizer.minimize(loss, global_step=global_step)] inside
    [with tf.control_dependencies(control_inputs)]. *)
Definition minimize (optimizer : Optimizer) (loss : node)
    (global_step : option node) (control_inputs : list node) : Tf node :=
  match optimizer with
  | GradientDescentOptimizer lr =>
      create (GradientDescentOptimizer_minimize lr loss global_step control_inputs)
  | AdamOptimizer lr =>
      create (AdamOptimizer_minimize lr loss global_step control_inputs)
  end.

(** Modelled from the spec: [triplet_loss.batch_hard_triplet_loss] is not
    under src/.  The spec has the model functions call into pre-built loss
    primitives; the call is embedded as the creation of one loss operation
    from its four arguments.  Summaries or further operations that the
    function may add on the way are not part of the model. *)
Definition call_batch_hard_triplet_loss (labels embeddings : node)
    (margin : Margin) (squared : bool) : Tf node :=
  create (batch_hard_triplet_loss labels embeddings margin squared).

(** [tf.estimator.EstimatorSpec]; an argument the call leaves out is
    [None].  [scaffold], which the one call that names it sets to [None], is
    left out. *)
Record EstimatorSpec : Type := {
  mode : ModeKeys;
  predictions : option (gmap string node);
  loss : option node;
  train_op : option node;
  eval_metric_ops : option (gmap string node)
}.

(** The arguments of the two factory functions that are functions
    themselves. *)
Context (network : string → gmap string node → Params → bool
                   → Tf (node * EndPoints)).
Context (get_learning_rate_func : Tf node).

(** [tf_triplet_loss_model_fn(...)]: the [model_func] it returns.
    [tf.variable_scope("metrics")] only prefixes the names of the operations
    created inside it. *)
Definition tf_triplet_loss_model_fn (scope_name : string)
    (features_embedding_key features_filename_key : string)
    (optimizer_type : OptimizerType) (use_l2_normalize : bool)
    (features : gmap string node) (labels : option node) (mode : ModeKeys)
    (params : Params) : Tf EstimatorSpec :=
  let* '(embeddings, end_points) :=
    (if bool_decide (mode = TRAIN)
     then network scope_name features params true
     else network scope_name features params false) in
  let* x := create (tf_norm embeddings 1) in
  let* embedding_mean_norm := create (tf_reduce_mean x) in
  let* _ := tf_summary_scalar "embedding_mean_norm" embedding_mean_norm in
  let* embeddings :=
    (if use_l2_normalize
     then create (tf_nn_l2_normalize embeddings 0)
     else ret embeddings) in
  if bool_decide (mode = PREDICT) then
    let* filename := getitem features features_filename_key in
    let predictions :=
      <[features_filename_key := filename]>
        (<[features_embedding_key := embeddings]> ∅) in
    ret {| mode := mode; predictions := Some predictions; loss := None;
           train_op := None; eval_metric_ops := None |}
  else
  let* labels := tensor_arg labels in
  let* labels := create (tf_cast labels int64) in
  let* loss :=
    call_batch_hard_triplet_loss labels embeddings (margin params) false in
  let* x := create (tf_metrics_mean embedding_mean_norm) in
  let eval_metric_ops : gmap string node := {[ "embedding_mean_norm" := x ]} in
  if bool_decide (mode = EVAL) then
    ret {| mode := mode; predictions := None; loss := Some loss;
           train_op := None; eval_metric_ops := Some eval_metric_ops |}
  else
  let* _ := tf_summary_scalar "loss" loss in
  let* optimizer :=
    (if bool_decide (optimizer_type = sgd)
     then let* lr := get_learning_rate_func in ret (GradientDescentOptimizer lr)
     else let* lr := get_learning_rate_func in ret (AdamOptimizer lr)) in
  let* global_step := tf_train_get_global_step in
  let* ops := tf_get_collection_UPDATE_OPS in
  let* _ := logger_debug ops in
  let* control_inputs := tf_get_collection_UPDATE_OPS in
  let* train_op := minimize optimizer loss global_step control_inputs in
  ret {| mode := mode; predictions := None; loss := Some loss;
         train_op := Some train_op; eval_metric_ops := None |}.

(** [tf_softmax_model_fn(...)]: the [model_func] it returns. *)
Definition tf_softmax_model_fn (scope_name : string)
    (features_filename_key : string) (optimizer_type : OptimizerType)
    (features : gmap string node) (labels : option node) (mode : ModeKeys)
    (params : Params) : Tf EstimatorSpec :=
  let* '(logits, end_points) :=
    (if bool_decide (mode = TRAIN)
     then network scope_name features params true
     else network scope_name features params false) in
  let* predicted_classes := create (tf_argmax logits 1) in
  if bool_decide (mode = PREDICT) then
    let* prob := create (tf_nn_softmax logits) in
    let* filename := getitem features features_filename_key in
    let predictions : gmap string node :=
      <["filename" := filename]>
        (<["prob" := prob]> (<["class" := predicted_classes]> ∅)) in
    ret {| mode := mode; predictions := Some predictions; loss := None;
           train_op := None; eval_metric_ops := None |}
  else
  let* labels := tensor_arg labels in
  let* loss := create (tf_losses_sparse_softmax_cross_entropy labels logits) in
  if bool_decide (mode = TRAIN) then
    let* _ := tf_summary_scalar "loss" loss in
    let* optimizer :=
      (if bool_decide (optimizer_type = sgd)
       then let* lr := get_learning_rate_func in ret (GradientDescentOptimizer lr)
       else let* lr := get_learning_rate_func in ret (AdamOptimizer lr)) in
    let* ops := tf_get_collection_UPDATE_OPS in
    let* _ := logger_debug ops in
    let* control_inputs := tf_get_collection_UPDATE_OPS in
    let* global_step := tf_train_get_global_step in
    let* all_train_op := minimize optimizer loss global_step control_inputs in
    ret {| mode := mode; predictions := None; loss := Some loss;
           train_op := Some all_train_op; eval_metric_ops := None |}
  else
  let* x := create (tf_metrics_accuracy labels predicted_classes) in
  let eval_metric_ops : gmap string node := {[ "accuracy" := x ]} in
  ret {| mode := mode; predictions := None; loss := Some loss;
         train_op := None; eval_metric_ops := Some eval_metric_ops |}.

(** The operations that compute a loss, and those that train. *)
Definition is_loss (n : node) : bool :=
  match n with
  | batch_hard_triplet_loss _ _ _ _
  | tf_losses_sparse_softmax_cross_entropy _ _ => true
  | _ => false
  end.
Definition is_train_op (n : node) : bool :=
  match n with
  | GradientDescentOptimizer_minimize _ _ _ _
  | AdamOptimizer_minimize _ _ _ _ => true
  | _ => false
  end.

(** Callbacks that do not raise. *)
Definition network_runs (scope_name : string) : Prop :=
  ∀ features params is_training g,
    ∃ r g1, network scope_name features params is_training g = inr (r, g1).
Definition learning_rate_runs : Prop :=
  ∀ g, ∃ lr g1, get_learning_rate_func g = inr (lr, g1).

(** A learning-rate function that does not raise and only adds to the graph:
    the operations and summaries it finds are still there, in place, when it
    returns. *)
Definition learning_rate_extends : Prop :=
  ∀ g, ∃ lr g1, get_learning_rate_func g = inr (lr, g1) ∧
    g_ops g `prefix_of` g_ops g1 ∧ g_summaries g `prefix_of` g_summaries g1.

(** Names for what [tf_triplet_loss_model_fn] builds from the embeddings
    of the network: their mean norm, the embeddings it goes on with, and
    the operations created up to there. *)
Definition mean_norm (embeddings : node) : node :=
  tf_reduce_mean (tf_norm embeddings 1).
Definition final_embeddings (use_l2_normalize : bool) (embeddings : node)
  : node :=
  if use_l2_normalize then tf_nn_l2_normalize embeddings 0 else embeddings.
Definition triplet_prefix_ops (use_l2_normalize : bool) (embeddings : node)
  : list node :=
  [tf_norm embeddings 1; mean_norm embeddings;
   tf_summary_scalar_op "embedding_mean_norm" (mean_norm embeddings)]
  ++ (if use_l2_normalize then [tf_nn_l2_normalize embeddings 0] else []).

(** The training operation either model function creates. *)
Definition minimize_op (optimizer_type : OptimizerType) (lr loss : node)
    (global_step : option node) (control_inputs : list node) : node :=
  if bool_decide (optimizer_type = sgd)
  then GradientDescentOptimizer_minimize lr loss global_step control_inputs
  else AdamOptimizer_minimize lr loss global_step control_inputs.
End ModelFn.
Global Arguments node : clear implicits.
Global Arguments Optimizer : clear implicits.
Global Arguments Graph : clear implicits.
Global Arguments Tf : clear implicits.
Global Arguments EstimatorSpec : clear implicits.

(** A small concrete estimator: a network of one operation, a constant
    learning rate, features of an image and its file name. *)
Module Demo.
Definition network (scope_name : string) (features : gmap string (node nat))
    (params : nat) (is_training : bool) : Tf nat (node nat * unit) :=
  bind (create (given scope_name)) (λ x, ret (x, tt)).
Definition get_learning_rate_func : Tf nat (node nat) :=
  ret (given "learning_rate").
Definition features : gmap string (node nat) :=
  <["filename" := given "filename"]> {[ "image" := given "image" ]}.
Definition g : Graph nat :=
  {| g_ops := []; g_summaries := []; g_update_ops := [];
     g_global_step := Some (given "global_step"); g_debug := [] |}.
End Demo.
End TfModelFn.

(** ** What a position receives from a scatter-add *)

Module TensorSums.
Import Tensor.

Section Slices.
Context {J : Type}.

(** The sum, at position [j] of a slice, of the [updates] whose index in
    [indices] is [i]. *)
Fixpoint sum_at (i : nat) (indices : list nat) (updates : tensor J) (j : J) : R :=
  match indices, updates with
  | i0 :: indices', u :: updates' =>
      ((if decide (i0 = i) then u j else 0) + sum_at i indices' updates' j)%R
  | _, _ => 0%R
  end.

(** How often [i] is listed in [indices]. *)
Definition occurrences (i : nat) (indices : list nat) : nat :=
  length (filter (λ i0, i0 = i) indices).
End Slices.
End TensorSums.

(** ** Which operations of a graph touch a variable *)

Module TfGraphAccess.
Import TfOptimizer TfGraph.

(** The name under which [inputs] brings in the handle of a variable. *)
Definition handle_name (r : ref) : string :=
  match r with
  | Var => "var"
  | SlotM => "m"
  | SlotV => "v"
  end.

(** The output of [src] is the variable [r] itself: its handle, or the
    output of a state operation on it. *)
Definition aliases (g : graph) (r : ref) (src : nat) : bool :=
  match g !! src with
  | Some n =>
      match n_op n with
      | Input name => bool_decide (name = handle_name r)
      | Assign r' | ScatterAdd r' => bool_decide (r' = r)
      | _ => false
      end
  | None => false
  end.

(** The operation [id] reads or writes the variable [r]: it takes the
    variable as a data input. *)
Definition touches (g : graph) (r : ref) (id : nat) : bool :=
  match g !! id with
  | Some n => existsb (aliases g r) (n_inputs n)
  | None => false
  end.
End TfGraphAccess.

(** ** Kinds of operations of the model functions *)

Module TfModelFnOps.
Import TfModelFn.

(** The operations that compute an evaluation metric. *)
Definition is_metric {Margin : Type} (n : node Margin) : bool :=
  match n with
  | tf_metrics_mean _ | tf_metrics_accuracy _ _ => true
  | _ => false
  end.
End TfModelFnOps.

(** ** Facts about scatter-add and gather *)

Module TensorFacts.
Import Tensor.

Section Slices.
Context {J : Type}.
Implicit Types (t : tensor J) (indices : list nat) (updates : tensor J).

Lemma scatter_add_rows_length t indices updates t' :
  scatter_add_rows t indices updates = Some t' → length t' = length t.
Proof.
  revert t updates.
  induction indices as [|i indices IH]; intros t [|u updates] H;
    simpl in H; try discriminate.
  - by injection H as <-.
  - destruct (t !! i) as [row|]; [|discriminate].
    rewrite (IH _ _ H). apply length_insert.
Qed.

(** The operation succeeds exactly when there is one update per index and
    every index lies inside the tensor. *)
Lemma scatter_add_rows_is_Some t indices updates :
  is_Some (scatter_add_rows t indices updates) ↔
  length updates = length indices ∧ Forall (λ i, i < length t) indices.
Proof.
  revert t updates.
  induction indices as [|i indices IH]; intros t [|u updates]; simpl.
  - split; [intros _; by split|eauto].
  - split; [by intros [? ?]|by intros [? _]].
  - split; [by intros [? ?]|by intros [? _]].
  - destruct (t !! i) as [row|] eqn:Hrow.
    + rewrite IH. setoid_rewrite length_insert. apply lookup_lt_Some in Hrow.
      split.
      * intros [-> ?]. split; [done|by constructor].
      * intros [[= ->] Hall]. by inversion_clear Hall.
    + apply lookup_ge_None in Hrow.
      split; [by intros [? ?]|].
      intros [_ Hall]. inversion_clear Hall. lia.
Qed.

(** Slices at positions outside [indices] are left as they were. *)
Lemma scatter_add_rows_frame t indices updates t' i :
  scatter_add_rows t indices updates = Some t' →
  i ∉ indices → t' !! i = t !! i.
Proof.
  revert t updates.
  induction indices as [|i0 indices IH]; intros t [|u updates] H Hi;
    simpl in H; try discriminate.
  - by injection H as <-.
  - destruct (t !! i0) as [row|]; [|discriminate].
    apply not_elem_of_cons in Hi as [Hne Hi].
    rewrite (IH _ _ H Hi). by apply list_lookup_insert_ne.
Qed.

(** With no index repeated, the slice at [indices[k]] receives exactly
    [updates[k]]. *)
Lemma scatter_add_rows_lookup t indices updates t' k i u row :
  NoDup indices →
  scatter_add_rows t indices updates = Some t' →
  indices !! k = Some i → updates !! k = Some u → t !! i = Some row →
  t' !! i = Some (slice_add row u).
Proof.
  revert t updates k.
  induction indices as [|i0 indices IH]; intros t [|u0 updates] k Hnd H Hk Hu Hrow;
    simpl in H; try discriminate.
  apply NoDup_cons in Hnd as [Hnotin Hnd].
  destruct k as [|k]; simpl in Hk, Hu.
  - injection Hk as ->. injection Hu as ->. rewrite Hrow in H.
    rewrite (scatter_add_rows_frame _ _ _ _ _ H Hnotin).
    apply list_lookup_insert_eq. by eapply lookup_lt_Some.
  - destruct (t !! i0) as [row0|] eqn:Hrow0; [|discriminate].
    assert (i0 ≠ i) as Hne.
    { intros ->. apply Hnotin. by eapply list_elem_of_lookup_2. }
    apply (IH _ _ k Hnd H Hk Hu). by rewrite list_lookup_insert_ne.
Qed.

Lemma gather_is_Some t indices :
  is_Some (gather t indices) ↔ Forall (λ i, i < length t) indices.
Proof.
  unfold gather. rewrite mapM_is_Some.
  apply Forall_proper; [|done]. intros i. apply lookup_lt_is_Some.
Qed.

Lemma gather_length t indices g :
  gather t indices = Some g → length g = length indices.
Proof. unfold gather. intros H. symmetry. by eapply length_mapM. Qed.

Lemma gather_lookup t indices g k i :
  gather t indices = Some g → indices !! k = Some i → g !! k = t !! i.
Proof.
  unfold gather. rewrite mapM_Some. intros H Hk.
  destruct (Forall2_lookup_l _ _ _ _ _ H Hk) as (y & -> & Hy). done.
Qed.

Lemma mul_scalar_lookup t c i :
  mul_scalar t c !! i = (λ s j, s j * c)%R <$> t !! i.
Proof. apply list_lookup_fmap. Qed.

Lemma mul_lookup_diag t i :
  mul t t !! i = (λ s j, s j * s j)%R <$> t !! i.
Proof.
  unfold mul. revert i. induction t as [|a t IH]; intros [|i]; simpl; auto.
Qed.
End Slices.
End TensorFacts.

(** ** The sparse update of [MaskedAdamOptimizer] *)

Module TfOptimizerFacts.
Import Tensor TensorFacts TfOptimizer.

Section Update.
Context {J : Type}.
Implicit Types (s : store J) (grad : tensor J) (indices : list nat)
  (self : AdamOptimizer).

(** The update unfolded: the three scatter-adds and the two gathers it is
    made of, in program order. *)
Lemma _apply_sparse_shared_Some self grad indices s s' :
  _apply_sparse_shared self grad indices scatter_add s = Some (tt, s') ↔
  ∃ m_t v_t gather_m_t gather_v_t var_t,
    scatter_add_rows (mul_scalar (st_m s) (_beta1_t self)) indices
      (mul_scalar grad (1 - _beta1_t self)) = Some m_t ∧
    scatter_add_rows (mul_scalar (st_v s) (_beta2_t self)) indices
      (mul_scalar (mul grad grad) (1 - _beta2_t self)) = Some v_t ∧
    gather m_t indices = Some gather_m_t ∧
    gather v_t indices = Some gather_v_t ∧
    scatter_add_rows (st_var s) indices
      (div (scalar_mul
              (- (_lr_t self * sqrt (1 - _beta2_power self)
                  / (1 - _beta1_power self)))
              gather_m_t)
           (add_scalar (tsqrt gather_v_t) (_epsilon_t self))) = Some var_t ∧
    s' = Store var_t m_t v_t.
Proof.
  unfold _apply_sparse_shared, _get_beta_accumulators, bind, value, assign,
    scatter_add, array_ops_gather, lift, ret; simpl.
  split.
  - intros H.
    destruct (scatter_add_rows (mul_scalar (st_m s) _) _ _) as [m_t|] eqn:Hm;
      [simpl in H|discriminate].
    destruct (scatter_add_rows (mul_scalar (st_v s) _) _ _) as [v_t|] eqn:Hv;
      [simpl in H|discriminate].
    destruct (gather m_t indices) as [gm|] eqn:Hgm;
      [simpl in H|simpl in H; discriminate].
    destruct (gather v_t indices) as [gv|] eqn:Hgv;
      [simpl in H|simpl in H; discriminate].
    destruct (scatter_add_rows (st_var s) _ _) as [var_t|] eqn:Hvar;
      [simpl in H|discriminate].
    injection H as <-. by exists m_t, v_t, gm, gv, var_t.
  - intros (m_t & v_t & gm & gv & var_t & Hm & Hv & Hgm & Hgv & Hvar & ->).
    rewrite Hm; simpl. rewrite Hv; simpl. rewrite Hgm; simpl.
    rewrite Hgv; simpl. by rewrite Hvar.
Qed.

Lemma well_shaped_runs self grad indices s :
  well_shaped s grad indices →
  is_Some (_apply_sparse_shared self grad indices scatter_add s).
Proof.
  intros (Hlen & Hm & Hv & Hvar).
  assert (is_Some (scatter_add_rows (mul_scalar (st_m s) (_beta1_t self))
    indices (mul_scalar grad (1 - _beta1_t self)))) as [m_t Hm_t].
  { apply scatter_add_rows_is_Some. unfold mul_scalar.
    rewrite !length_fmap. done. }
  assert (is_Some (scatter_add_rows (mul_scalar (st_v s) (_beta2_t self))
    indices (mul_scalar (mul grad grad) (1 - _beta2_t self)))) as [v_t Hv_t].
  { apply scatter_add_rows_is_Some. unfold mul_scalar, mul.
    rewrite !length_fmap, length_zip_with, Nat.min_id. done. }
  assert (is_Some (gather m_t indices)) as [gm Hgm].
  { apply gather_is_Some. rewrite (scatter_add_rows_length _ _ _ _ Hm_t).
    unfold mul_scalar. by rewrite length_fmap. }
  assert (is_Some (gather v_t indices)) as [gv Hgv].
  { apply gather_is_Some. rewrite (scatter_add_rows_length _ _ _ _ Hv_t).
    unfold mul_scalar. by rewrite length_fmap. }
  pose (lr := (_lr_t self * sqrt (1 - _beta2_power self)
               / (1 - _beta1_power self))%R).
  assert (is_Some (scatter_add_rows (st_var s) indices
    (div (scalar_mul (- lr) gm)
         (add_scalar (tsqrt gv) (_epsilon_t self))))) as [var_t Hvar_t].
  { apply scatter_add_rows_is_Some. split; [|done].
    unfold div, scalar_mul, add_scalar, tsqrt.
    rewrite length_zip_with, !length_fmap.
    rewrite (gather_length _ _ _ Hgm), (gather_length _ _ _ Hgv). lia. }
  exists (tt, Store var_t m_t v_t). apply _apply_sparse_shared_Some.
  by exists m_t, v_t, gm, gv, var_t.
Qed.

(** A run that succeeds was given well-shaped inputs. *)
Lemma runs_well_shaped self grad indices s s' :
  _apply_sparse_shared self grad indices scatter_add s = Some (tt, s') →
  well_shaped s grad indices.
Proof.
  intros H. apply _apply_sparse_shared_Some in H
    as (m_t & v_t & gm & gv & var_t & Hm & Hv & _ & _ & Hvar & _).
  apply mk_is_Some, scatter_add_rows_is_Some in Hm as [Hlen Hm].
  apply mk_is_Some, scatter_add_rows_is_Some in Hv as [_ Hv].
  apply mk_is_Some, scatter_add_rows_is_Some in Hvar as [_ Hvar].
  unfold mul_scalar in *. rewrite length_fmap in Hlen.
  setoid_rewrite length_fmap in Hm. setoid_rewrite length_fmap in Hv.
  done.
Qed.

(** Slices of the variable at positions outside [indices] keep their
    value, whatever the run did elsewhere. *)
Lemma var_frame self grad indices s s' i :
  _apply_sparse_shared self grad indices scatter_add s = Some (tt, s') →
  i ∉ indices → st_var s' !! i = st_var s !! i.
Proof.
  intros H Hi. apply _apply_sparse_shared_Some in H
    as (m_t & v_t & gm & gv & var_t & _ & _ & _ & _ & Hvar & ->).
  simpl. by eapply scatter_add_rows_frame.
Qed.

(** The step on the variable at a position of [indices], when no position
    is named twice: the gathered moments are those of that position. *)
Lemma var_step_at_index self grad indices s s' k i var_i :
  NoDup indices →
  _apply_sparse_shared self grad indices scatter_add s = Some (tt, s') →
  indices !! k = Some i → st_var s !! i = Some var_i →
  ∃ m_new v_new,
    st_m s' !! i = Some m_new ∧ st_v s' !! i = Some v_new ∧
    st_var s' !! i
    = Some (slice_add var_i
              (λ j, - (_lr_t self * sqrt (1 - _beta2_power self)
                       / (1 - _beta1_power self)) * m_new j
                    / (sqrt (v_new j) + _epsilon_t self))%R).
Proof.
  intros Hnd Hrun Hk Hvari.
  destruct (runs_well_shaped _ _ _ _ _ Hrun) as (_ & Hin_m & Hin_v & _).
  apply _apply_sparse_shared_Some in Hrun
    as (m_t & v_t & gm & gv & var_t & Hm & Hv & Hgm & Hgv & Hvar & ->).
  simpl.
  assert (is_Some (m_t !! i)) as [m_new Hm_new].
  { apply lookup_lt_is_Some. rewrite (scatter_add_rows_length _ _ _ _ Hm).
    unfold mul_scalar. rewrite length_fmap.
    eapply (Forall_lookup_1 _ _ _ _ Hin_m Hk). }
  assert (is_Some (v_t !! i)) as [v_new Hv_new].
  { apply lookup_lt_is_Some. rewrite (scatter_add_rows_length _ _ _ _ Hv).
    unfold mul_scalar. rewrite length_fmap.
    eapply (Forall_lookup_1 _ _ _ _ Hin_v Hk). }
  exists m_new, v_new. split; [exact Hm_new|]. split; [exact Hv_new|].
  eapply (scatter_add_rows_lookup _ _ _ _ k); eauto.
  unfold div, scalar_mul, add_scalar, tsqrt.
  rewrite lookup_zip_with, !list_lookup_fmap.
  rewrite (gather_lookup _ _ _ _ _ Hgm Hk), Hm_new.
  rewrite (gather_lookup _ _ _ _ _ Hgv Hk), Hv_new. done.
Qed.

(** ** Adam's mathematics *)

(** C2. On well-shaped inputs whose [indices] name each position at most
    once, the masked update runs through, and afterwards: [m] at an index
    [i] of [indices] holds [beta1 * m[i] + (1 - beta1) * g_i] and
    [beta1 * m[i]] at any other position; [v] holds
    [beta2 * v[i] + (1 - beta2) * g_i^2], respectively [beta2 * v[i]]; and
    the variable at [i] has moved by
    [-lr_t * sqrt(1 - beta2_power) / (1 - beta1_power) * m_new[i]
     / (sqrt(v_new[i]) + epsilon)]. *)
Theorem masked_adam_mathematics self grad indices s :
  NoDup indices →
  well_shaped s grad indices →
  ∃ s', _apply_sparse_shared self grad indices scatter_add s = Some (tt, s') ∧
    (∀ k i g_i m_i,
       indices !! k = Some i → grad !! k = Some g_i → st_m s !! i = Some m_i →
       ∃ m_new, st_m s' !! i = Some m_new ∧
         ∀ j, m_new j
              = (_beta1_t self * m_i j + (1 - _beta1_t self) * g_i j)%R) ∧
    (∀ i m_i,
       i ∉ indices → st_m s !! i = Some m_i →
       ∃ m_new, st_m s' !! i = Some m_new ∧
         ∀ j, m_new j = (_beta1_t self * m_i j)%R) ∧
    (∀ k i g_i v_i,
       indices !! k = Some i → grad !! k = Some g_i → st_v s !! i = Some v_i →
       ∃ v_new, st_v s' !! i = Some v_new ∧
         ∀ j, v_new j
              = (_beta2_t self * v_i j + (1 - _beta2_t self) * g_i j ^ 2)%R) ∧
    (∀ i v_i,
       i ∉ indices → st_v s !! i = Some v_i →
       ∃ v_new, st_v s' !! i = Some v_new ∧
         ∀ j, v_new j = (_beta2_t self * v_i j)%R) ∧
    (∀ k i var_i,
       indices !! k = Some i → st_var s !! i = Some var_i →
       ∃ m_new v_new var_new,
         st_m s' !! i = Some m_new ∧ st_v s' !! i = Some v_new ∧
         st_var s' !! i = Some var_new ∧
         ∀ j, var_new j
              = (var_i j
                 + - _lr_t self * sqrt (1 - _beta2_power self)
                   / (1 - _beta1_power self) * m_new j
                   / (sqrt (v_new j) + _epsilon_t self))%R).
Proof.
  intros Hnd Hshape.
  destruct (well_shaped_runs self _ _ _ Hshape) as [[[] s'] Hrun].
  exists s'. split; [done|].
  apply _apply_sparse_shared_Some in Hrun
    as (m_t & v_t & gm & gv & var_t & Hm & Hv & Hgm & Hgv & Hvar & ->).
  simpl. repeat split.
  - intros k i g_i m_i Hk Hg Hmi. eexists. split.
    + eapply (scatter_add_rows_lookup _ _ _ _ k); eauto.
      * rewrite mul_scalar_lookup, Hg. done.
      * rewrite mul_scalar_lookup, Hmi. done.
    + intros j. unfold slice_add. ring.
  - intros i m_i Hi Hmi. eexists. split.
    + rewrite (scatter_add_rows_frame _ _ _ _ _ Hm Hi).
      rewrite mul_scalar_lookup, Hmi. done.
    + intros j. simpl. ring.
  - intros k i g_i v_i Hk Hg Hvi. eexists. split.
    + eapply (scatter_add_rows_lookup _ _ _ _ k); eauto.
      * rewrite mul_scalar_lookup, mul_lookup_diag, Hg. done.
      * rewrite mul_scalar_lookup, Hvi. done.
    + intros j. unfold slice_add. ring.
  - intros i v_i Hi Hvi. eexists. split.
    + rewrite (scatter_add_rows_frame _ _ _ _ _ Hv Hi).
      rewrite mul_scalar_lookup, Hvi. done.
    + intros j. simpl. ring.
  - intros k i var_i Hk Hvari.
    destruct (var_step_at_index self grad indices s (Store var_t m_t v_t)
                k i var_i Hnd) as (m_new & v_new & Hm_new & Hv_new & Hvar_new);
      [|done..|].
    { apply _apply_sparse_shared_Some.
      by exists m_t, v_t, gm, gv, var_t. }
    exists m_new, v_new. eexists.
    split; [exact Hm_new|]. split; [exact Hv_new|]. split; [exact Hvar_new|].
    intros j. unfold slice_add, Rdiv. ring.
Qed.

(** ** The frame of the update *)

(** C3. The masked update changes the variable only at the positions
    listed in [indices]: on well-shaped inputs it runs through, and every
    slice of [var] whose index is not in [indices] is the same after the
    update as before it. *)
Theorem masked_update_frame self grad indices s :
  well_shaped s grad indices →
  ∃ s', _apply_sparse_shared self grad indices scatter_add s = Some (tt, s') ∧
    ∀ i, i ∉ indices → st_var s' !! i = st_var s !! i.
Proof.
  intros Hshape.
  destruct (well_shaped_runs self _ _ _ Hshape) as [[[] s'] Hrun].
  exists s'. split; [done|].
  intros i Hi. by eapply var_frame.
Qed.

(** ** Against the canonical sparse update *)

Lemma canonical_apply_sparse_shared_Some self grad indices s s' :
  canonical_apply_sparse_shared self grad indices scatter_add s
    = Some (tt, s') ↔
  ∃ m_t v_t,
    scatter_add_rows (mul_scalar (st_m s) (_beta1_t self)) indices
      (mul_scalar grad (1 - _beta1_t self)) = Some m_t ∧
    scatter_add_rows (mul_scalar (st_v s) (_beta2_t self)) indices
      (mul_scalar (mul grad grad) (1 - _beta2_t self)) = Some v_t ∧
    s' = Store
           (sub (st_var s)
              (div (scalar_mul
                      (_lr_t self * sqrt (1 - _beta2_power self)
                       / (1 - _beta1_power self)) m_t)
                   (add_scalar (tsqrt v_t) (_epsilon_t self))))
           m_t v_t.
Proof.
  unfold canonical_apply_sparse_shared, _get_beta_accumulators, bind, value,
    assign, assign_sub, scatter_add, ret; simpl.
  split.
  - intros H.
    destruct (scatter_add_rows (mul_scalar (st_m s) _) _ _) as [m_t|] eqn:Hm;
      [simpl in H|discriminate].
    destruct (scatter_add_rows (mul_scalar (st_v s) _) _ _) as [v_t|] eqn:Hv;
      [simpl in H|discriminate].
    injection H as <-. by exists m_t, v_t.
  - intros (m_t & v_t & Hm & Hv & ->).
    rewrite Hm; simpl. by rewrite Hv.
Qed.

(** C1, as the code has it.  The moment accumulators are computed the same
    way by both methods, decay first and scatter-add second; the methods
    differ in the step on the variable.  On well-shaped inputs whose
    [indices] name each position at most once both run through and leave
    the same [m] and [v]; at a position of [indices] they leave the same
    value in [var]; at any other position the masked method leaves [var]
    as it was, while the canonical one subtracts
    [lr * m_t / (sqrt(v_t) + epsilon)] there too. *)
Theorem masked_differs_from_canonical_only_off_indices self grad indices s :
  NoDup indices →
  well_shaped s grad indices →
  slots_shaped s →
  ∃ s1 s2,
    _apply_sparse_shared self grad indices scatter_add s = Some (tt, s1) ∧
    canonical_apply_sparse_shared self grad indices scatter_add s
      = Some (tt, s2) ∧
    st_m s1 = st_m s2 ∧ st_v s1 = st_v s2 ∧
    (∀ i x1 x2,
       i ∈ indices → st_var s1 !! i = Some x1 → st_var s2 !! i = Some x2 →
       ∀ j, x1 j = x2 j) ∧
    (∀ i, i ∉ indices → st_var s1 !! i = st_var s !! i) ∧
    (∀ i var_i m_new v_new,
       st_var s !! i = Some var_i → st_m s2 !! i = Some m_new →
       st_v s2 !! i = Some v_new →
       ∃ x2, st_var s2 !! i = Some x2 ∧
         ∀ j, x2 j
              = (var_i j
                 - _lr_t self * sqrt (1 - _beta2_power self)
                   / (1 - _beta1_power self) * m_new j
                   / (sqrt (v_new j) + _epsilon_t self))%R).
Proof.
  intros Hnd Hshape [Hlen_m Hlen_v].
  destruct (well_shaped_runs self _ _ _ Hshape) as [[[] s1] Hrun].
  pose proof (var_step_at_index self grad indices s s1) as Hstep.
  pose proof Hrun as Hrun'.
  apply _apply_sparse_shared_Some in Hrun'
    as (m_t & v_t & gm & gv & var_t & Hm & Hv & Hgm & Hgv & Hvar & ->).
  eexists _, _. split; [exact Hrun|]. split.
  { apply canonical_apply_sparse_shared_Some. by exists m_t, v_t. }
  simpl in *.
  assert (∀ i var_i m_new v_new,
    st_var s !! i = Some var_i → m_t !! i = Some m_new →
    v_t !! i = Some v_new →
    sub (st_var s)
      (div (scalar_mul (_lr_t self * sqrt (1 - _beta2_power self)
                        / (1 - _beta1_power self)) m_t)
           (add_scalar (tsqrt v_t) (_epsilon_t self))) !! i
    = Some (λ j, var_i j
                 - _lr_t self * sqrt (1 - _beta2_power self)
                   / (1 - _beta1_power self) * m_new j
                   / (sqrt (v_new j) + _epsilon_t self))%R) as Hdense.
  { intros i var_i m_new v_new Hvari Hmi Hvi.
    unfold sub, div, scalar_mul, add_scalar, tsqrt.
    rewrite !lookup_zip_with, !list_lookup_fmap, Hvari, Hmi, Hvi. done. }
  repeat split; [done..| | |].
  - intros i x1 x2 [k Hk]%list_elem_of_lookup_1 Hx1 Hx2 j.
    assert (is_Some (st_var s !! i)) as [var_i Hvari].
    { apply lookup_lt_is_Some.
      rewrite <-(scatter_add_rows_length _ _ _ _ Hvar).
      by eapply lookup_lt_Some. }
    destruct (Hstep k i var_i Hnd Hrun Hk Hvari)
      as (m_new & v_new & Hmi & Hvi & Hx).
    simpl in Hmi, Hvi, Hx.
    rewrite (Hdense _ _ _ _ Hvari Hmi Hvi) in Hx2.
    rewrite Hx1 in Hx. injection Hx as ->. injection Hx2 as <-.
    unfold slice_add, Rdiv. ring.
  - intros i Hi. by eapply scatter_add_rows_frame.
  - intros i var_i m_new v_new Hvari Hmi Hvi.
    eexists. split; [by apply Hdense|done].
Qed.
End Update.

(** ** Concrete runs *)

Lemma masked_adam_mathematics_witness :
  NoDup Demo.indices ∧ well_shaped Demo.s Demo.grad Demo.indices ∧
  ∃ s', _apply_sparse_shared Demo.self Demo.grad Demo.indices scatter_add Demo.s
        = Some (tt, s') ∧
    ∀ k i var_i,
      Demo.indices !! k = Some i → st_var Demo.s !! i = Some var_i →
      ∃ m_new v_new var_new,
        st_m s' !! i = Some m_new ∧ st_v s' !! i = Some v_new ∧
        st_var s' !! i = Some var_new ∧
        ∀ j, var_new j
             = (var_i j
                + - _lr_t Demo.self * sqrt (1 - _beta2_power Demo.self)
                  / (1 - _beta1_power Demo.self) * m_new j
                  / (sqrt (v_new j) + _epsilon_t Demo.self))%R.
Proof.
  split; [apply NoDup_singleton|].
  split; [unfold well_shaped; simpl; repeat split; repeat constructor|].
  destruct (masked_adam_mathematics Demo.self Demo.grad Demo.indices Demo.s)
    as (s' & Hrun & _ & _ & _ & _ & Hstep).
  - apply NoDup_singleton.
  - unfold well_shaped; simpl; repeat split; repeat constructor.
  - exists s'. split; [exact Hrun|exact Hstep].
Defined.

Lemma masked_update_frame_witness :
  well_shaped Demo.s Demo.grad Demo.indices ∧
  ∃ s', _apply_sparse_shared Demo.self Demo.grad Demo.indices scatter_add Demo.s
        = Some (tt, s') ∧
    ∀ i, i ∉ Demo.indices → st_var s' !! i = st_var Demo.s !! i.
Proof.
  split.
  - unfold well_shaped; simpl; repeat split; repeat constructor.
  - apply (masked_update_frame Demo.self Demo.grad Demo.indices Demo.s).
    unfold well_shaped; simpl; repeat split; repeat constructor.
Defined.

Lemma masked_differs_from_canonical_witness :
  NoDup Demo.indices ∧ well_shaped Demo.s Demo.grad Demo.indices ∧
  slots_shaped Demo.s ∧
  ∃ s1 s2,
    _apply_sparse_shared Demo.self Demo.grad Demo.indices scatter_add Demo.s
      = Some (tt, s1) ∧
    canonical_apply_sparse_shared Demo.self Demo.grad Demo.indices
      scatter_add Demo.s = Some (tt, s2) ∧
    st_m s1 = st_m s2 ∧ st_v s1 = st_v s2 ∧
    ∀ i, i ∉ Demo.indices → st_var s1 !! i = st_var Demo.s !! i.
Proof.
  split; [apply NoDup_singleton|].
  split; [unfold well_shaped; simpl; repeat split; repeat constructor|].
  split; [by split|].
  destruct (masked_differs_from_canonical_only_off_indices
              Demo.self Demo.grad Demo.indices Demo.s)
    as (s1 & s2 & H1 & H2 & Hm & Hv & _ & Hframe & _).
  - apply NoDup_singleton.
  - unfold well_shaped; simpl; repeat split; repeat constructor.
  - by split.
  - exists s1, s2. auto.
Defined.

(** Why [indices] must name each position once: an index listed twice
    receives both gradient slices.  With [indices = [0; 0]] and both slices
    [1], [m[0]] ends at [1], not at [beta1 * 0 + (1 - beta1) * 1 = 1 / 2]. *)
Example repeated_index_accumulates :
  ∃ s' m_new,
    _apply_sparse_shared Demo.self [λ _, 1%R; λ _, 1%R] [0; 0] scatter_add
      Demo.s = Some (tt, s') ∧
    st_m s' !! 0 = Some m_new ∧ m_new tt = 1%R.
Proof.
  unfold _apply_sparse_shared, bind. simpl.
  eexists _, _. split; [reflexivity|]. split; [reflexivity|].
  unfold slice_add. lra.
Qed.

(** C1, as it is stated, fails on [Demo]: the two methods leave different
    values in the second slice of the variable, which the gradient does not
    touch: the masked method leaves [1], the canonical one [1 / 2]. *)
Lemma masked_and_canonical_results_differ :
  ¬ same_result
      (_apply_sparse_shared Demo.self Demo.grad Demo.indices scatter_add Demo.s)
      (canonical_apply_sparse_shared Demo.self Demo.grad Demo.indices
         scatter_add Demo.s).
Proof.
  unfold same_result, _apply_sparse_shared, canonical_apply_sparse_shared.
  unfold bind; simpl.
  intros [Hvar _]. unfold tensor_eq in Hvar.
  inversion_clear Hvar as [|? ? ? ? _ Htail].
  inversion_clear Htail as [|? ? ? ? Hsnd _].
  specialize (Hsnd tt). simpl in Hsnd.
  replace (1 - 3 / 4)%R with ((1 / 2) * (1 / 2))%R in Hsnd by lra.
  replace (0 * (3 / 4))%R with 0%R in Hsnd by lra.
  rewrite sqrt_square, sqrt_0 in Hsnd by lra. lra.
Qed.
End TfOptimizerFacts.

(** ** The order of the operations in every execution *)

Module TfGraphFacts.
Import TfOptimizer TfGraph.

Lemma runnable_dependency g fired sched q b n d :
  runnable g fired sched = true →
  sched !! q = Some b → g !! b = Some n →
  d ∈ n_inputs n ++ n_control n →
  d ∈ fired ∨ ∃ p, p < q ∧ sched !! p = Some d.
Proof.
  revert fired q.
  induction sched as [|id sched IH]; intros fired q Hrun Hq Hb Hd;
    [done|].
  simpl in Hrun. destruct (g !! id) as [n0|] eqn:Hid; [|done].
  apply andb_prop in Hrun as [Hrun Hrest].
  apply andb_prop in Hrun as [Hdeps _].
  destruct q as [|q]; simpl in Hq.
  - injection Hq as ->. rewrite Hid in Hb. injection Hb as ->.
    left. rewrite forallb_forall in Hdeps.
    apply list_elem_of_In, Hdeps, bool_decide_eq_true in Hd. done.
  - destruct (IH _ _ Hrest Hq Hb Hd) as [Hin|(p & Hp & Hsched)].
    + apply elem_of_cons in Hin as [->|Hin]; [|by left].
      right. exists 0. split; [lia|done].
    + right. exists (S p). split; [lia|done].
Qed.

(** In an execution from the start, an operation fires after each of its
    data and control inputs. *)
Lemma input_fires_before g sched b n d :
  runnable g [] sched = true →
  b ∈ sched → g !! b = Some n →
  d ∈ n_inputs n ++ n_control n →
  fires_before sched d b.
Proof.
  intros Hrun [q Hq]%list_elem_of_lookup_1 Hb Hd.
  destruct (runnable_dependency _ _ _ _ _ _ _ Hrun Hq Hb Hd)
    as [Hin|(p & Hp & Hsched)]; [by apply elem_of_nil in Hin|].
  by exists p, q.
Qed.

Lemma fires_before_elem_of sched a b : fires_before sched a b → a ∈ sched.
Proof. intros (p & q & Hp & _ & _). by eapply list_elem_of_lookup_2. Qed.

(** No operation fires twice. *)
Lemma runnable_NoDup g fired sched :
  runnable g fired sched = true → NoDup sched ∧ ∀ id, id ∈ sched → id ∉ fired.
Proof.
  revert fired. induction sched as [|id sched IH]; intros fired Hrun.
  - split; [constructor|]. intros id Hid. by apply elem_of_nil in Hid.
  - simpl in Hrun. destruct (g !! id) as [n0|]; [|done].
    apply andb_prop in Hrun as [Hrun Hrest].
    apply andb_prop in Hrun as [_ Hfresh].
    apply bool_decide_eq_true in Hfresh.
    destruct (IH _ Hrest) as [Hnd Hnot]. split.
    + constructor; [|done]. intros Hin. apply (Hnot _ Hin). by left.
    + intros id' [->|Hin]%elem_of_cons; [done|].
      intros Hf. apply (Hnot _ Hin). by right.
Qed.

Lemma fires_before_trans g fired sched a b c :
  runnable g fired sched = true →
  fires_before sched a b → fires_before sched b c → fires_before sched a c.
Proof.
  intros [Hnd _]%runnable_NoDup (p & q & Hp & Hq & Hpq) (q' & r & Hq' & Hr & Hqr).
  assert (q = q') as <- by by eapply NoDup_lookup.
  exists p, r. repeat split; [done..|lia].
Qed.

(** The graph of the update, operation by operation. *)
Lemma update_graph_nodes :
  update_graph = ltac:(let g := eval vm_compute in update_graph in exact g).
Proof. vm_compute. reflexivity. Qed.

(** Names the operation of [update_graph] that a [has_op] hypothesis speaks
    of, one case per operation that carries the operator. *)
Tactic Notation "find_node" hyp(H) "at" ident(id) :=
  let n := fresh "n" in
  let Hn := fresh "Hn" in
  let Hop := fresh "Hop" in
  destruct H as (n & Hn & Hop);
  rewrite update_graph_nodes in Hn;
  let rec go k :=
    lazymatch k with
    | O => simpl in Hn; discriminate Hn
    | S ?k' =>
        destruct id as [|id];
        [ simpl in Hn; injection Hn as <-; simpl in Hop;
          try discriminate Hop; try (injection Hop as <-);
          try (injection Hop as ->)
        | go k' ]
    end
  in go 46.

Ltac by_input Hrun :=
  eapply (input_fires_before _ _ _ _ _ Hrun);
  [ try done
  | rewrite update_graph_nodes; simpl; reflexivity
  | simpl; set_solver ].

(** The update has exactly one decay assignment and one scatter-add for each
    accumulator, one scatter-add for the variable, and the program order is
    one of the orders in which the session may run them. *)
Lemma update_graph_ops :
  has_op update_graph (Assign SlotM) 28 ∧
  has_op update_graph (ScatterAdd SlotM) 29 ∧
  has_op update_graph (Assign SlotV) 35 ∧
  has_op update_graph (ScatterAdd SlotV) 36 ∧
  has_op update_graph (ScatterAdd Var) 44 ∧
  runnable update_graph [] (program_order update_graph) = true.
Proof.
  rewrite update_graph_nodes.
  repeat split; try (eexists; split; [reflexivity|reflexivity]).
Qed.


End TfGraphFacts.

(** ** What the subclass inherits *)

Module PyClassFacts.
Import PyClass.

Section Classes.
Context {B : Type}.
Implicit Types (base : class B) (f : method B).

Lemma getattr_inherited base f attr :
  attr ≠ "_apply_sparse_shared" →
  getattr (MaskedAdamOptimizer base f) attr = getattr base attr.
Proof.
  intros Hne. simpl. by rewrite lookup_singleton_ne.
Qed.

Lemma getattr_overridden base f :
  getattr (MaskedAdamOptimizer base f) "_apply_sparse_shared" = Some f.
Proof. simpl. by rewrite lookup_singleton_eq. Qed.

(** C4. [MaskedAdamOptimizer] overrides [_apply_sparse_shared] and nothing
    else: looking up that name yields the function of the class body,
    looking up any other name yields what [adam.AdamOptimizer] has under
    it; and every operation outside the sparse path, the set of names whose
    functions may go through [self._apply_sparse_shared], does on the
    subclass what it does on the base class. *)
Theorem only_sparse_path_overridden base f (path : string → bool) :
  path "_apply_sparse_shared" = true →
  (∀ attr g, path attr = false → getattr base attr = Some g →
             outside path g) →
  getattr (MaskedAdamOptimizer base f) "_apply_sparse_shared" = Some f ∧
  (∀ attr, attr ≠ "_apply_sparse_shared" →
     getattr (MaskedAdamOptimizer base f) attr = getattr base attr) ∧
  (∀ depth attr, path attr = false →
     bound depth (MaskedAdamOptimizer base f) attr = bound depth base attr).
Proof.
  intros Hpath Hout.
  split; [apply getattr_overridden|].
  split; [intros attr; apply getattr_inherited|].
  induction depth as [|depth IH]; intros attr Hattr; [done|].
  cbn [bound]. rewrite getattr_inherited by (intros ->; congruence).
  destruct (getattr base attr) as [g|] eqn:Hg; [|done].
  simpl. f_equal. by apply (Hout attr g).
Qed.
End Classes.

Lemma only_sparse_path_overridden_witness :
  Demo.sparse_path "_apply_sparse_shared" = true ∧
  bound 3 (MaskedAdamOptimizer Demo.adam_AdamOptimizer (λ _, 7)) "_apply_dense"
    = bound 3 Demo.adam_AdamOptimizer "_apply_dense".
Proof.
  split; [reflexivity|].
  apply (only_sparse_path_overridden Demo.adam_AdamOptimizer (λ _, 7)
           Demo.sparse_path); [reflexivity| |reflexivity].
  intros attr g Hattr Hg self1 self2 Hself.
  unfold Demo.adam_AdamOptimizer in Hg. simpl in Hg.
  unfold Demo.sparse_path in Hattr. apply orb_false_elim in Hattr as [H1 H2].
  apply bool_decide_eq_false in H1, H2.
  destruct (decide (attr = "_apply_dense")) as [->|Hd].
  - rewrite lookup_insert_eq in Hg. by injection Hg as <-.
  - rewrite !lookup_insert_ne, lookup_singleton_ne in Hg by done. done.
Defined.

(** The sparse path itself is not inherited unchanged: [_apply_sparse] of
    the base class goes through the overriding function. *)
Example sparse_path_changes :
  bound 3 (MaskedAdamOptimizer Demo.adam_AdamOptimizer (λ _, 7)) "_apply_sparse"
    = Some 7 ∧
  bound 3 Demo.adam_AdamOptimizer "_apply_sparse" = Some 2.
Proof. split; vm_compute; reflexivity. Qed.
End PyClassFacts.

(** ** The model functions, mode by mode *)

Module TfModelFnFacts.
Import TfModelFn TfModelFnOps.

Section ModelFn.
Context {Params EndPoints Margin : Type}.
Context (margin : Params → Margin).
Context (network : string → gmap string (node Margin) → Params → bool
                   → Tf Margin (node Margin * EndPoints)).
Context (get_learning_rate_func : Tf Margin (node Margin)).
Context (scope_name features_embedding_key features_filename_key : string).
Context (optimizer_type : OptimizerType) (use_l2_normalize : bool).

Abbreviation node := (node Margin).
Abbreviation Graph := (Graph Margin).
Abbreviation triplet_model_func :=
  (tf_triplet_loss_model_fn margin network get_learning_rate_func scope_name
     features_embedding_key features_filename_key optimizer_type
     use_l2_normalize).
Abbreviation softmax_model_func :=
  (tf_softmax_model_fn network get_learning_rate_func scope_name
     features_filename_key optimizer_type).

Implicit Types (features : gmap string node) (labels : option node)
  (params : Params) (g : Graph) (embeddings logits : node).

Abbreviation network_runs := (network_runs network scope_name).
Abbreviation learning_rate_runs := (learning_rate_runs get_learning_rate_func).
Abbreviation learning_rate_extends :=
  (learning_rate_extends get_learning_rate_func).
Abbreviation final_embeddings := (final_embeddings use_l2_normalize).
Abbreviation triplet_prefix_ops := (triplet_prefix_ops use_l2_normalize).
Abbreviation minimize_op := (minimize_op optimizer_type).

(** *** [tf_triplet_loss_model_fn] *)

Lemma triplet_PREDICT_run features labels params g embeddings end_points g1 :
  network scope_name features params false g
    = inr ((embeddings, end_points), g1) →
  ∃ g2,
    triplet_model_func features labels PREDICT params g
    = match features !! features_filename_key with
      | Some filename =>
          inr ({| mode := PREDICT;
                  predictions :=
                    Some (<[features_filename_key := filename]>
                            (<[features_embedding_key :=
                                 final_embeddings embeddings]> ∅));
                  loss := None; train_op := None;
                  eval_metric_ops := None |}, g2)
      | None => inl (KeyError features_filename_key)
      end ∧
    g_ops g2 = g_ops g1 ++ triplet_prefix_ops embeddings ∧
    g_summaries g2
    = g_summaries g1 ++ [("embedding_mean_norm", mean_norm embeddings)].
Proof.
  intros Hnet.
  unfold tf_triplet_loss_model_fn, bind, getitem, TfModelFn.triplet_prefix_ops,
    TfModelFn.final_embeddings, mean_norm.
  simpl. rewrite Hnet. simpl.
  destruct use_l2_normalize; simpl;
    (eexists; split;
     [destruct (features !! features_filename_key); simpl; reflexivity|]);
    simpl; rewrite <-?app_assoc; done.
Qed.

Lemma triplet_EVAL_run features l params g embeddings end_points g1 :
  network scope_name features params false g
    = inr ((embeddings, end_points), g1) →
  ∃ g2,
    triplet_model_func features (Some l) EVAL params g
    = inr ({| mode := EVAL; predictions := None;
              loss := Some (batch_hard_triplet_loss (tf_cast l int64)
                              (final_embeddings embeddings) (margin params)
                              false);
              train_op := None;
              eval_metric_ops :=
                Some {[ "embedding_mean_norm" :=
                          tf_metrics_mean (mean_norm embeddings) ]} |}, g2) ∧
    g_ops g2
    = g_ops g1 ++ triplet_prefix_ops embeddings
      ++ [tf_cast l int64;
          batch_hard_triplet_loss (tf_cast l int64)
            (final_embeddings embeddings) (margin params) false;
          tf_metrics_mean (mean_norm embeddings)] ∧
    g_summaries g2
    = g_summaries g1 ++ [("embedding_mean_norm", mean_norm embeddings)].
Proof.
  intros Hnet.
  unfold tf_triplet_loss_model_fn, bind, TfModelFn.triplet_prefix_ops,
    TfModelFn.final_embeddings, mean_norm.
  simpl. rewrite Hnet. simpl.
  destruct use_l2_normalize; simpl;
    (eexists; split; [reflexivity|]);
    simpl; rewrite <-?app_assoc; done.
Qed.

Lemma triplet_TRAIN_run features l params g embeddings end_points g1 :
  learning_rate_runs →
  network scope_name features params true g
    = inr ((embeddings, end_points), g1) →
  let loss_op :=
    batch_hard_triplet_loss (tf_cast l int64) (final_embeddings embeddings)
      (margin params) false in
  ∃ gb lr ga g2,
    get_learning_rate_func gb = inr (lr, ga) ∧
    g_ops gb
    = g_ops g1 ++ triplet_prefix_ops embeddings
      ++ [tf_cast l int64; loss_op; tf_metrics_mean (mean_norm embeddings);
          tf_summary_scalar_op "loss" loss_op] ∧
    triplet_model_func features (Some l) TRAIN params g
    = inr ({| mode := TRAIN; predictions := None; loss := Some loss_op;
              train_op :=
                Some (minimize_op lr loss_op (g_global_step ga)
                        (g_update_ops ga));
              eval_metric_ops := None |}, g2) ∧
    g_ops g2
    = g_ops ga
      ++ [minimize_op lr loss_op (g_global_step ga) (g_update_ops ga)] ∧
    g_debug g2 = g_debug ga ++ [g_update_ops ga].
Proof.
  intros Hlr Hnet loss_op. subst loss_op.
  unfold tf_triplet_loss_model_fn, bind, TfModelFn.triplet_prefix_ops,
    TfModelFn.final_embeddings, mean_norm, TfModelFn.minimize_op.
  simpl. rewrite Hnet. simpl.
  destruct use_l2_normalize, (bool_decide (optimizer_type = sgd)); simpl;
    match goal with
    | |- context [get_learning_rate_func ?gb] =>
        destruct (Hlr gb) as (lr & ga & Hga); exists gb, lr, ga
    end;
    rewrite Hga; simpl;
    (eexists; split; [reflexivity|]);
    (split; [simpl; rewrite <-?app_assoc; done|]);
    (split; [reflexivity|]); simpl; done.
Qed.

(** *** [tf_softmax_model_fn] *)

Lemma softmax_PREDICT_run features labels params g logits end_points g1 :
  network scope_name features params false g
    = inr ((logits, end_points), g1) →
  ∃ g2,
    softmax_model_func features labels PREDICT params g
    = match features !! features_filename_key with
      | Some filename =>
          inr ({| mode := PREDICT;
                  predictions :=
                    Some (<["filename" := filename]>
                            (<["prob" := tf_nn_softmax logits]>
                               (<["class" := tf_argmax logits 1]> ∅)));
                  loss := None; train_op := None;
                  eval_metric_ops := None |}, g2)
      | None => inl (KeyError features_filename_key)
      end ∧
    g_ops g2 = g_ops g1 ++ [tf_argmax logits 1; tf_nn_softmax logits].
Proof.
  intros Hnet. unfold tf_softmax_model_fn, bind, getitem.
  simpl. rewrite Hnet. simpl.
  eexists; split;
    [destruct (features !! features_filename_key); simpl; reflexivity|].
  simpl. by rewrite <-app_assoc.
Qed.

Lemma softmax_EVAL_run features l params g logits end_points g1 :
  network scope_name features params false g
    = inr ((logits, end_points), g1) →
  ∃ g2,
    softmax_model_func features (Some l) EVAL params g
    = inr ({| mode := EVAL; predictions := None;
              loss := Some (tf_losses_sparse_softmax_cross_entropy l logits);
              train_op := None;
              eval_metric_ops :=
                Some {[ "accuracy" :=
                          tf_metrics_accuracy l (tf_argmax logits 1) ]} |},
           g2) ∧
    g_ops g2
    = g_ops g1
      ++ [tf_argmax logits 1; tf_losses_sparse_softmax_cross_entropy l logits;
          tf_metrics_accuracy l (tf_argmax logits 1)].
Proof.
  intros Hnet. unfold tf_softmax_model_fn, bind.
  simpl. rewrite Hnet. simpl.
  eexists; split; [reflexivity|]. simpl. by rewrite <-!app_assoc.
Qed.

Lemma softmax_TRAIN_run features l params g logits end_points g1 :
  learning_rate_runs →
  network scope_name features params true g
    = inr ((logits, end_points), g1) →
  let loss_op := tf_losses_sparse_softmax_cross_entropy l logits in
  ∃ gb lr ga g2,
    get_learning_rate_func gb = inr (lr, ga) ∧
    g_ops gb
    = g_ops g1
      ++ [tf_argmax logits 1; loss_op; tf_summary_scalar_op "loss" loss_op] ∧
    softmax_model_func features (Some l) TRAIN params g
    = inr ({| mode := TRAIN; predictions := None; loss := Some loss_op;
              train_op :=
                Some (minimize_op lr loss_op (g_global_step ga)
                        (g_update_ops ga));
              eval_metric_ops := None |}, g2) ∧
    g_ops g2
    = g_ops ga
      ++ [minimize_op lr loss_op (g_global_step ga) (g_update_ops ga)] ∧
    g_debug g2 = g_debug ga ++ [g_update_ops ga].
Proof.
  intros Hlr Hnet loss_op. subst loss_op.
  unfold tf_softmax_model_fn, bind, TfModelFn.minimize_op.
  simpl. rewrite Hnet. simpl.
  destruct (bool_decide (optimizer_type = sgd)); simpl;
    match goal with
    | |- context [get_learning_rate_func ?gb] =>
        destruct (Hlr gb) as (lr & ga & Hga); exists gb, lr, ga
    end;
    rewrite Hga; simpl;
    (eexists; split; [reflexivity|]);
    (split; [simpl; rewrite <-?app_assoc; done|]);
    (split; [reflexivity|]); simpl; done.
Qed.

(** *** [TRAIN] mode with a learning-rate function that only adds *)

Lemma triplet_TRAIN_extends features l params g embeddings end_points g1 :
  learning_rate_extends →
  network scope_name features params true g
    = inr ((embeddings, end_points), g1) →
  let loss_op :=
    batch_hard_triplet_loss (tf_cast l int64) (final_embeddings embeddings)
      (margin params) false in
  ∃ lr global_step control_inputs later more g2,
    triplet_model_func features (Some l) TRAIN params g
    = inr ({| mode := TRAIN; predictions := None; loss := Some loss_op;
              train_op :=
                Some (minimize_op lr loss_op global_step control_inputs);
              eval_metric_ops := None |}, g2) ∧
    g_ops g2
    = g_ops g1 ++ triplet_prefix_ops embeddings
      ++ [tf_cast l int64; loss_op; tf_metrics_mean (mean_norm embeddings);
          tf_summary_scalar_op "loss" loss_op]
      ++ later ++ [minimize_op lr loss_op global_step control_inputs] ∧
    g_summaries g2
    = g_summaries g1
      ++ [("embedding_mean_norm", mean_norm embeddings); ("loss", loss_op)]
      ++ more.
Proof.
  intros Hlr Hnet loss_op. subst loss_op.
  unfold tf_triplet_loss_model_fn, bind, TfModelFn.triplet_prefix_ops,
    TfModelFn.final_embeddings, mean_norm, TfModelFn.minimize_op.
  simpl. rewrite Hnet. simpl.
  destruct use_l2_normalize, (bool_decide (optimizer_type = sgd)); simpl;
    match goal with
    | |- context [get_learning_rate_func ?gb] =>
        destruct (Hlr gb) as (lr & ga & Hga & [later Hops] & [more Hsum])
    end;
    rewrite Hga; simpl; simpl in Hops, Hsum;
    exists lr, (g_global_step ga), (g_update_ops ga), later, more;
    (eexists; split; [reflexivity|]); simpl;
    rewrite Hops, Hsum, <-?app_assoc; done.
Qed.

Lemma softmax_TRAIN_extends features l params g logits end_points g1 :
  learning_rate_extends →
  network scope_name features params true g
    = inr ((logits, end_points), g1) →
  let loss_op := tf_losses_sparse_softmax_cross_entropy l logits in
  ∃ lr global_step control_inputs later more g2,
    softmax_model_func features (Some l) TRAIN params g
    = inr ({| mode := TRAIN; predictions := None; loss := Some loss_op;
              train_op :=
                Some (minimize_op lr loss_op global_step control_inputs);
              eval_metric_ops := None |}, g2) ∧
    g_ops g2
    = g_ops g1
      ++ [tf_argmax logits 1; loss_op; tf_summary_scalar_op "loss" loss_op]
      ++ later ++ [minimize_op lr loss_op global_step control_inputs] ∧
    g_summaries g2 = g_summaries g1 ++ [("loss", loss_op)] ++ more.
Proof.
  intros Hlr Hnet loss_op. subst loss_op.
  unfold tf_softmax_model_fn, bind, TfModelFn.minimize_op.
  simpl. rewrite Hnet. simpl.
  destruct (bool_decide (optimizer_type = sgd)); simpl;
    match goal with
    | |- context [get_learning_rate_func ?gb] =>
        destruct (Hlr gb) as (lr & ga & Hga & [later Hops] & [more Hsum])
    end;
    rewrite Hga; simpl; simpl in Hops, Hsum;
    exists lr, (g_global_step ga), (g_update_ops ga), later, more;
    (eexists; split; [reflexivity|]); simpl;
    rewrite Hops, Hsum, <-?app_assoc; done.
Qed.

Lemma minimize_op_is_train_op (lr loss_op : node) (global_step : option node)
    (control_inputs : list node) :
  is_train_op (minimize_op lr loss_op global_step control_inputs) = true.
Proof. unfold TfModelFn.minimize_op. by case_bool_decide. Qed.

(** *** The claims about both model functions *)

(** C5. With a network that does not raise, a learning-rate function that
    only adds to the graph and [features] that hold the file-name key, either
    model function returns in each of the three modes.  In [PREDICT] the
    [EstimatorSpec] has predictions, not empty, and neither loss, train op
    nor metrics, and no loss and no training operation was created after the
    network.  In [EVAL], given labels, it has as loss a loss operation
    created after the network, as metrics a dictionary, not empty, of metric
    operations created after the network, and no train op, and no training
    operation was created.  In [TRAIN], given labels, it has as loss a loss
    operation created after the network and as train op a training operation
    created after the network that minimises that loss. *)
Theorem model_functions_branch_on_mode features filename l params g
    (model_func : gmap string node → option node → ModeKeys → Params
                  → Tf Margin (EstimatorSpec Margin)) :
  model_func = triplet_model_func ∨ model_func = softmax_model_func →
  network_runs →
  learning_rate_extends →
  features !! features_filename_key = Some filename →
  (∀ labels, ∃ r g1 spec g2 created p,
     network scope_name features params false g = inr (r, g1) ∧
     model_func features labels PREDICT params g = inr (spec, g2) ∧
     mode spec = PREDICT ∧ predictions spec = Some p ∧ p ≠ ∅ ∧
     loss spec = None ∧ train_op spec = None ∧ eval_metric_ops spec = None ∧
     g_ops g2 = g_ops g1 ++ created ∧
     Forall (λ n, is_loss n = false ∧ is_train_op n = false) created) ∧
  (∃ r g1 spec g2 created loss_op metrics,
     network scope_name features params false g = inr (r, g1) ∧
     model_func features (Some l) EVAL params g = inr (spec, g2) ∧
     mode spec = EVAL ∧ predictions spec = None ∧ train_op spec = None ∧
     loss spec = Some loss_op ∧ is_loss loss_op = true ∧
     eval_metric_ops spec = Some metrics ∧ metrics ≠ ∅ ∧
     (∀ k v, metrics !! k = Some v → is_metric v = true ∧ v ∈ created) ∧
     g_ops g2 = g_ops g1 ++ created ∧ loss_op ∈ created ∧
     Forall (λ n, is_train_op n = false) created) ∧
  (∃ r g1 spec g2 created loss_op train,
     network scope_name features params true g = inr (r, g1) ∧
     model_func features (Some l) TRAIN params g = inr (spec, g2) ∧
     mode spec = TRAIN ∧ predictions spec = None ∧
     eval_metric_ops spec = None ∧
     loss spec = Some loss_op ∧ is_loss loss_op = true ∧
     train_op spec = Some train ∧ is_train_op train = true ∧
     (∃ lr global_step control_inputs,
        train = minimize_op lr loss_op global_step control_inputs) ∧
     g_ops g2 = g_ops g1 ++ created ∧ loss_op ∈ created ∧ train ∈ created).
Proof.
  intros Hfn Hnet Hlr Hkey.
  destruct (Hnet features params false g) as ([out ep] & g1 & Hfalse).
  destruct (Hnet features params true g) as ([out' ep'] & g1' & Htrue).
  destruct Hfn as [-> | ->]; (split; [|split]).
  - intros labels.
    destruct (triplet_PREDICT_run features labels params g _ _ _ Hfalse)
      as (g2 & Hrun & Hops & _).
    rewrite Hkey in Hrun.
    eexists _, _, _, _, _, _. split; [exact Hfalse|]. split; [exact Hrun|].
    simpl. split; [done|]. split; [done|].
    split; [apply insert_non_empty|]. repeat split; [exact Hops|].
    unfold TfModelFn.triplet_prefix_ops.
    destruct use_l2_normalize; repeat constructor.
  - destruct (triplet_EVAL_run features l params g _ _ _ Hfalse)
      as (g2 & Hrun & Hops & _).
    eexists _, _, _, _, _, _, _. split; [exact Hfalse|]. split; [exact Hrun|].
    simpl. do 5 (split; [done|]). split; [done|].
    split; [apply insert_non_empty|]. split; [|split; [exact Hops|split]].
    + intros k v [<- <-]%lookup_singleton_Some. split; [done|].
      apply elem_of_app. right. set_solver.
    + apply elem_of_app. right. set_solver.
    + unfold TfModelFn.triplet_prefix_ops.
      apply Forall_app. split; [destruct use_l2_normalize|];
        repeat constructor.
  - destruct (triplet_TRAIN_extends features l params g _ _ _ Hlr Htrue)
      as (lr & gs & ci & later & more & g2 & Hrun & Hops & _).
    eexists _, _, _, _, _, _, _. split; [exact Htrue|]. split; [exact Hrun|].
    simpl. do 5 (split; [done|]). split; [done|].
    split; [apply minimize_op_is_train_op|].
    split; [by eexists _, _, _|]. split; [exact Hops|].
    split; rewrite !elem_of_app; set_solver.
  - intros labels.
    destruct (softmax_PREDICT_run features labels params g _ _ _ Hfalse)
      as (g2 & Hrun & Hops).
    rewrite Hkey in Hrun.
    eexists _, _, _, _, _, _. split; [exact Hfalse|]. split; [exact Hrun|].
    simpl. split; [done|]. split; [done|].
    split; [apply insert_non_empty|]. repeat split; [exact Hops|].
    repeat constructor.
  - destruct (softmax_EVAL_run features l params g _ _ _ Hfalse)
      as (g2 & Hrun & Hops).
    eexists _, _, _, _, _, _, _. split; [exact Hfalse|]. split; [exact Hrun|].
    simpl. do 5 (split; [done|]). split; [done|].
    split; [apply insert_non_empty|]. split; [|split; [exact Hops|split]].
    + intros k v [<- <-]%lookup_singleton_Some. split; [done|]. set_solver.
    + set_solver.
    + repeat constructor.
  - destruct (softmax_TRAIN_extends features l params g _ _ _ Hlr Htrue)
      as (lr & gs & ci & later & more & g2 & Hrun & Hops & _).
    eexists _, _, _, _, _, _, _. split; [exact Htrue|]. split; [exact Hrun|].
    simpl. do 5 (split; [done|]). split; [done|].
    split; [apply minimize_op_is_train_op|].
    split; [by eexists _, _, _|]. split; [exact Hops|].
    split; rewrite !elem_of_app; set_solver.
Qed.

(** C6. In [TRAIN] mode either model function builds its train op with
    the optimizer that [optimizer_type] alone selects:
    [GradientDescentOptimizer] when it is [sgd], [AdamOptimizer] for any
    other value; in both cases with the learning rate that the call of
    [get_learning_rate_func] returned. *)
Theorem optimizer_selected_by_type features l params g
    (model_func : gmap string node → option node → ModeKeys → Params
                  → Tf Margin (EstimatorSpec Margin)) :
  model_func = triplet_model_func ∨ model_func = softmax_model_func →
  network_runs →
  learning_rate_runs →
  ∃ spec g2 gb lr ga loss_op global_step control_inputs,
    model_func features (Some l) TRAIN params g = inr (spec, g2) ∧
    get_learning_rate_func gb = inr (lr, ga) ∧
    loss spec = Some loss_op ∧
    (optimizer_type = sgd →
     train_op spec
     = Some (GradientDescentOptimizer_minimize lr loss_op global_step
               control_inputs)) ∧
    (optimizer_type ≠ sgd →
     train_op spec
     = Some (AdamOptimizer_minimize lr loss_op global_step control_inputs)).
Proof.
  intros Hfn Hnet Hlr.
  destruct (Hnet features params true g) as ([out ep] & g1 & Htrue).
  destruct Hfn as [-> | ->].
  - destruct (triplet_TRAIN_run features l params g _ _ _ Hlr Htrue)
      as (gb & lr & ga & g2 & Hga & _ & Hrun & _).
    eexists _, _, gb, lr, ga, _, _, _. split; [exact Hrun|].
    split; [exact Hga|]. simpl. split; [done|].
    unfold TfModelFn.minimize_op. split; intros Hty.
    + by rewrite bool_decide_eq_true_2.
    + by rewrite bool_decide_eq_false_2.
  - destruct (softmax_TRAIN_run features l params g _ _ _ Hlr Htrue)
      as (gb & lr & ga & g2 & Hga & _ & Hrun & _).
    eexists _, _, gb, lr, ga, _, _, _. split; [exact Hrun|].
    split; [exact Hga|]. simpl. split; [done|].
    unfold TfModelFn.minimize_op. split; intros Hty.
    + by rewrite bool_decide_eq_true_2.
    + by rewrite bool_decide_eq_false_2.
Qed.

(** C7. In [EVAL] and in [TRAIN] mode, given labels, the loss of
    [tf_triplet_loss_model_fn] is [batch_hard_triplet_loss] of the labels
    cast to [int64] and the embeddings, with [margin=params.margin] and
    [squared=False]; the loss of [tf_softmax_model_fn] is the sparse
    softmax cross-entropy of the labels against the logits of the
    network. *)
Theorem losses_from_framework_primitives features l params g m out
    end_points g1 :
  m ≠ PREDICT →
  learning_rate_runs →
  network scope_name features params (bool_decide (m = TRAIN)) g
    = inr ((out, end_points), g1) →
  (∃ spec g2,
     triplet_model_func features (Some l) m params g = inr (spec, g2) ∧
     loss spec
     = Some (batch_hard_triplet_loss (tf_cast l int64)
               (final_embeddings out) (margin params) false)) ∧
  (∃ spec g2,
     softmax_model_func features (Some l) m params g = inr (spec, g2) ∧
     loss spec = Some (tf_losses_sparse_softmax_cross_entropy l out)).
Proof.
  intros Hm Hlr Hnet. destruct m; [| |done]; simpl in Hnet.
  - destruct (triplet_TRAIN_run features l params g _ _ _ Hlr Hnet)
      as (? & ? & ? & g2 & _ & _ & Hrun & _).
    destruct (softmax_TRAIN_run features l params g _ _ _ Hlr Hnet)
      as (? & ? & ? & g2' & _ & _ & Hrun' & _).
    split; eexists _, _; (split; [eassumption|done]).
  - destruct (triplet_EVAL_run features l params g _ _ _ Hnet)
      as (g2 & Hrun & _).
    destruct (softmax_EVAL_run features l params g _ _ _ Hnet)
      as (g2' & Hrun' & _).
    split; eexists _, _; (split; [eassumption|done]).
Qed.

(** C9. With [use_l2_normalize] set, [tf_triplet_loss_model_fn]
    normalises the embeddings along axis 0.  In every mode the first
    operations it creates after the network are, in this order, the norm
    along axis 1 of the embeddings as the network returned them, its mean,
    the summary of that mean, and the normalisation along axis 0; the first
    summary it adds is that of the mean norm of the raw embeddings.  What
    comes afterwards takes the normalised embeddings: the [PREDICT]
    predictions, and the triplet loss, which is created later.  For [TRAIN]
    this is stated of the graph the model function returns, given a
    learning-rate function that only adds to the graph. *)
Theorem l2_normalize_axis_0_after_mean_norm features filename l params g
    embeddings embeddings' end_points end_points' g1 g1' :
  use_l2_normalize = true →
  learning_rate_extends →
  features !! features_filename_key = Some filename →
  network scope_name features params false g
    = inr ((embeddings, end_points), g1) →
  network scope_name features params true g
    = inr ((embeddings', end_points'), g1') →
  let summary e :=
    tf_summary_scalar_op "embedding_mean_norm"
      (tf_reduce_mean (tf_norm e 1)) in
  let loss_op e :=
    batch_hard_triplet_loss (tf_cast l int64) (tf_nn_l2_normalize e 0)
      (margin params) false in
  (∀ labels, ∃ spec g2,
     triplet_model_func features labels PREDICT params g = inr (spec, g2) ∧
     predictions spec
     = Some (<[features_filename_key := filename]>
               (<[features_embedding_key :=
                    tf_nn_l2_normalize embeddings 0]> ∅)) ∧
     g_ops g2
     = g_ops g1
       ++ [tf_norm embeddings 1; tf_reduce_mean (tf_norm embeddings 1);
           summary embeddings; tf_nn_l2_normalize embeddings 0] ∧
     g_summaries g2
     = g_summaries g1
       ++ [("embedding_mean_norm", tf_reduce_mean (tf_norm embeddings 1))]) ∧
  (∃ spec g2 later more,
     triplet_model_func features (Some l) EVAL params g = inr (spec, g2) ∧
     loss spec = Some (loss_op embeddings) ∧
     eval_metric_ops spec
     = Some {[ "embedding_mean_norm" :=
                 tf_metrics_mean (tf_reduce_mean (tf_norm embeddings 1)) ]} ∧
     g_ops g2
     = g_ops g1
       ++ [tf_norm embeddings 1; tf_reduce_mean (tf_norm embeddings 1);
           summary embeddings; tf_nn_l2_normalize embeddings 0]
       ++ later ∧
     loss_op embeddings ∈ later ∧
     g_summaries g2
     = g_summaries g1
       ++ ("embedding_mean_norm", tf_reduce_mean (tf_norm embeddings 1))
          :: more) ∧
  (∃ spec g2 later more,
     triplet_model_func features (Some l) TRAIN params g = inr (spec, g2) ∧
     loss spec = Some (loss_op embeddings') ∧
     g_ops g2
     = g_ops g1'
       ++ [tf_norm embeddings' 1; tf_reduce_mean (tf_norm embeddings' 1);
           summary embeddings'; tf_nn_l2_normalize embeddings' 0]
       ++ later ∧
     loss_op embeddings' ∈ later ∧
     g_summaries g2
     = g_summaries g1'
       ++ ("embedding_mean_norm", tf_reduce_mean (tf_norm embeddings' 1))
          :: more).
Proof.
  intros Hl2 Hlr Hkey Hfalse Htrue summary loss_op. subst summary loss_op.
  split; [|split].
  - intros labels.
    destruct (triplet_PREDICT_run features labels params g _ _ _ Hfalse)
      as (g2 & Hrun & Hops & Hsum).
    rewrite Hkey in Hrun.
    unfold TfModelFn.triplet_prefix_ops, TfModelFn.final_embeddings in *.
    rewrite Hl2 in Hrun, Hops |- *. simpl in Hrun, Hops. by eexists _, _.
  - destruct (triplet_EVAL_run features l params g _ _ _ Hfalse)
      as (g2 & Hrun & Hops & Hsum).
    unfold TfModelFn.triplet_prefix_ops, TfModelFn.final_embeddings in *.
    rewrite Hl2 in Hrun, Hops |- *. simpl in Hrun, Hops.
    eexists _, g2, _, []. split; [exact Hrun|]. simpl.
    split; [done|]. split; [done|]. split; [exact Hops|].
    split; [|exact Hsum]. set_solver.
  - destruct (triplet_TRAIN_extends features l params g _ _ _ Hlr Htrue)
      as (lr & gs & ci & later & more & g2 & Hrun & Hops & Hsum).
    unfold TfModelFn.triplet_prefix_ops, TfModelFn.final_embeddings in *.
    rewrite Hl2 in Hrun, Hops |- *. simpl in Hrun, Hops, Hsum.
    eexists _, g2, _, _. split; [exact Hrun|]. simpl.
    split; [done|]. split; [exact Hops|].
    split; [|exact Hsum]. set_solver.
Qed.

(** C10. In [PREDICT] mode neither model function looks at [labels]: it
    does with any labels what it does with [None].  When the network does
    not raise and [features] hold the file-name key, the call returns, and
    the predictions have exactly the keys [features_embedding_key] and
    [features_filename_key], respectively ["class"], ["prob"] and
    ["filename"]. *)
Theorem predict_ignores_labels features params g :
  (∀ labels,
     triplet_model_func features labels PREDICT params g
     = triplet_model_func features None PREDICT params g) ∧
  (∀ labels,
     softmax_model_func features labels PREDICT params g
     = softmax_model_func features None PREDICT params g) ∧
  (is_Some (features !! features_filename_key) →
   (∃ r g1, network scope_name features params false g = inr (r, g1)) →
   (∃ spec g2 p,
      triplet_model_func features None PREDICT params g = inr (spec, g2) ∧
      predictions spec = Some p ∧
      dom p = ({[features_embedding_key; features_filename_key]} : gset string)) ∧
   (∃ spec g2 p,
      softmax_model_func features None PREDICT params g = inr (spec, g2) ∧
      predictions spec = Some p ∧
      dom p = ({["class"; "prob"; "filename"]} : gset string))).
Proof.
  split; [|split].
  - intros labels. unfold tf_triplet_loss_model_fn, bind. simpl.
    destruct (network _ _ _ _ _) as [|[[] ?]]; done.
  - intros labels. unfold tf_softmax_model_fn, bind. simpl.
    destruct (network _ _ _ _ _) as [|[[] ?]]; done.
  - intros [filename Hkey] ([out ep] & g1 & Hnet). split.
    + destruct (triplet_PREDICT_run features None params g _ _ _ Hnet)
        as (g2 & Hrun & _).
      rewrite Hkey in Hrun. eexists _, _, _.
      split; [exact Hrun|]. split; [done|].
      rewrite !dom_insert_L, dom_empty_L. apply set_eq. intros x.
      rewrite !elem_of_union, !elem_of_singleton, elem_of_empty. tauto.
    + destruct (softmax_PREDICT_run features None params g _ _ _ Hnet)
        as (g2 & Hrun & _).
      rewrite Hkey in Hrun. eexists _, _, _.
      split; [exact Hrun|]. split; [done|].
      rewrite !dom_insert_L, dom_empty_L. apply set_eq. intros x.
      rewrite !elem_of_union, !elem_of_singleton, elem_of_empty. tauto.
Qed.
End ModelFn.

(** *** Concrete runs *)

Lemma model_functions_branch_on_mode_witness :
  ∃ r g1 spec g2 created loss_op train,
    Demo.network "net" Demo.features 0 true Demo.g = inr (r, g1) ∧
    tf_softmax_model_fn Demo.network Demo.get_learning_rate_func "net"
      "filename" adam Demo.features (Some (given "labels")) TRAIN 0 Demo.g
    = inr (spec, g2) ∧
    mode spec = TRAIN ∧
    loss spec = Some loss_op ∧ is_loss loss_op = true ∧
    train_op spec = Some train ∧ is_train_op train = true ∧
    g_ops g2 = g_ops g1 ++ created ∧ loss_op ∈ created ∧ train ∈ created.
Proof.
  destruct (model_functions_branch_on_mode (λ p : nat, p) Demo.network
              Demo.get_learning_rate_func "net" "embedding" "filename" adam
              true Demo.features (given "filename") (given "labels") 0 Demo.g
              (tf_softmax_model_fn Demo.network Demo.get_learning_rate_func
                 "net" "filename" adam))
    as (_ & _ & (r & g1 & spec & g2 & created & loss_op & train & Hnet & Hrun
                 & Hmode & _ & _ & Hloss & Hisloss & Htrain & Histrain & _
                 & Hops & Hin_loss & Hin_train)).
  - right. reflexivity.
  - intros features params is_training g. eexists _, _. reflexivity.
  - intros g. eexists _, _. split; [reflexivity|]. split; reflexivity.
  - reflexivity.
  - exists r, g1, spec, g2, created, loss_op, train. auto 10.
Defined.

Lemma optimizer_selected_by_type_witness :
  ∃ spec g2 gb lr ga loss_op global_step control_inputs,
    tf_triplet_loss_model_fn (λ p : nat, p) Demo.network
      Demo.get_learning_rate_func "net" "embedding" "filename" sgd false
      Demo.features (Some (given "labels")) TRAIN 0 Demo.g = inr (spec, g2) ∧
    Demo.get_learning_rate_func gb = inr (lr, ga) ∧
    loss spec = Some loss_op ∧
    (sgd = sgd →
     train_op spec
     = Some (GradientDescentOptimizer_minimize lr loss_op global_step
               control_inputs)) ∧
    (sgd ≠ sgd →
     train_op spec
     = Some (AdamOptimizer_minimize lr loss_op global_step control_inputs)).
Proof.
  apply (optimizer_selected_by_type (λ p : nat, p) Demo.network
           Demo.get_learning_rate_func "net" "embedding" "filename" sgd false
           Demo.features (given "labels") 0 Demo.g).
  - left. reflexivity.
  - intros features params is_training g. eexists _, _. reflexivity.
  - intros g. eexists _, _. reflexivity.
Defined.

Lemma losses_from_framework_primitives_witness :
  ∃ spec g2,
    tf_triplet_loss_model_fn (λ p : nat, p) Demo.network
      Demo.get_learning_rate_func "net" "embedding" "filename" adam false
      Demo.features (Some (given "labels")) EVAL 5 Demo.g = inr (spec, g2) ∧
    loss spec
    = Some (batch_hard_triplet_loss (tf_cast (given "labels") int64)
              (given "net") 5 false).
Proof.
  apply (losses_from_framework_primitives (λ p : nat, p) Demo.network
           Demo.get_learning_rate_func "net" "embedding" "filename" adam false
           Demo.features (given "labels") 5 Demo.g EVAL (given "net") tt
           {| g_ops := [given "net"]; g_summaries := []; g_update_ops := [];
              g_global_step := Some (given "global_step"); g_debug := [] |}).
  - discriminate.
  - intros g. eexists _, _. reflexivity.
  - reflexivity.
Defined.

Lemma l2_normalize_axis_0_witness :
  ∃ spec g2 later more,
    tf_triplet_loss_model_fn (λ p : nat, p) Demo.network
      Demo.get_learning_rate_func "net" "embedding" "filename" adam true
      Demo.features (Some (given "labels")) TRAIN 5 Demo.g = inr (spec, g2) ∧
    loss spec
    = Some (batch_hard_triplet_loss (tf_cast (given "labels") int64)
              (tf_nn_l2_normalize (given "net") 0) 5 false) ∧
    g_ops g2
    = [given "net"]
      ++ [tf_norm (given "net") 1; tf_reduce_mean (tf_norm (given "net") 1);
          tf_summary_scalar_op "embedding_mean_norm"
            (tf_reduce_mean (tf_norm (given "net") 1));
          tf_nn_l2_normalize (given "net") 0]
      ++ later ∧
    batch_hard_triplet_loss (tf_cast (given "labels") int64)
      (tf_nn_l2_normalize (given "net") 0) 5 false ∈ later ∧
    g_summaries g2
    = [] ++ ("embedding_mean_norm",
             tf_reduce_mean (tf_norm (given "net") 1)) :: more.
Proof.
  pose (g1 := {| g_ops := [given (Margin:=nat) "net"]; g_summaries := [];
                 g_update_ops := [];
                 g_global_step := Some (given "global_step");
                 g_debug := [] |}).
  destruct (l2_normalize_axis_0_after_mean_norm (λ p : nat, p) Demo.network
              Demo.get_learning_rate_func "net" "embedding" "filename" adam
              true Demo.features (given "filename") (given "labels") 5 Demo.g
              (given "net") (given "net") tt tt g1 g1)
    as (_ & _ & H).
  - reflexivity.
  - intros g. eexists _, _. split; [reflexivity|]. split; reflexivity.
  - reflexivity.
  - reflexivity.
  - reflexivity.
  - exact H.
Defined.

Lemma predict_ignores_labels_witness :
  ∃ spec g2 p,
    tf_softmax_model_fn Demo.network Demo.get_learning_rate_func "net"
      "filename" adam Demo.features None PREDICT 0 Demo.g = inr (spec, g2) ∧
    predictions spec = Some p ∧
    dom p = ({["class"; "prob"; "filename"]} : gset string).
Proof.
  destruct (predict_ignores_labels (λ p : nat, p) Demo.network
              Demo.get_learning_rate_func "net" "embedding" "filename" adam
              false Demo.features 0 Demo.g) as (_ & _ & H).
  apply H.
  - eexists. reflexivity.
  - eexists _, _. reflexivity.
Defined.

(** With [labels=None] the other two modes raise. *)
Example labels_needed_outside_PREDICT :
  tf_softmax_model_fn Demo.network Demo.get_learning_rate_func "net"
    "filename" adam Demo.features None EVAL 0 Demo.g = inl ValueError ∧
  tf_triplet_loss_model_fn (λ p : nat, p) Demo.network
    Demo.get_learning_rate_func "net" "embedding" "filename" adam false
    Demo.features None TRAIN 0 Demo.g = inl ValueError.
Proof. split; reflexivity. Qed.
End TfModelFnFacts.

(** ** More about the sparse update: errors, shapes, repeated indices *)

Module TfOptimizerMore.
Import Tensor TensorFacts TensorSums TfOptimizer TfOptimizerFacts.

Section Update.
Context {J : Type}.
Implicit Types (s : store J) (grad : tensor J) (indices : list nat)
  (self : AdamOptimizer) (t updates : tensor J).

(** A scatter-add leaves at every position what was there plus the sum of
    the updates addressed to it. *)
Lemma scatter_add_rows_sum t indices updates t' i row :
  scatter_add_rows t indices updates = Some t' →
  t !! i = Some row →
  ∃ row', t' !! i = Some row' ∧
    ∀ j, row' j = (row j + sum_at i indices updates j)%R.
Proof.
  revert t updates row.
  induction indices as [|i0 indices IH]; intros t [|u updates] row H Hrow;
    simpl in H; try discriminate.
  - injection H as <-. exists row. split; [done|]. intros j. simpl. lra.
  - destruct (t !! i0) as [row0|] eqn:Hrow0; [|discriminate].
    destruct (decide (i0 = i)) as [->|Hne].
    + rewrite Hrow in Hrow0. injection Hrow0 as <-.
      destruct (IH _ _ (slice_add row u) H) as (row' & Hrow' & Hsum).
      { apply list_lookup_insert_eq. by eapply lookup_lt_Some. }
      exists row'. split; [done|]. intros j. rewrite Hsum. simpl.
      rewrite decide_True by done. unfold slice_add. lra.
    + destruct (IH _ _ row H) as (row' & Hrow' & Hsum).
      { by rewrite list_lookup_insert_ne. }
      exists row'. split; [done|]. intros j. rewrite Hsum. simpl.
      rewrite decide_False by done. lra.
Qed.

Lemma sum_at_mul_scalar i indices updates c j :
  sum_at i indices (mul_scalar updates c) j
  = (sum_at i indices updates j * c)%R.
Proof.
  revert updates. induction indices as [|i0 indices IH]; intros [|u updates];
    simpl; try lra.
  rewrite IH. destruct (decide (i0 = i)); lra.
Qed.

(** When every update addressed to [i] has the same value at [j], the sum is
    that value times the number of times [i] is listed. *)
Lemma sum_at_constant i indices updates (c : R) j :
  length updates = length indices →
  (∀ k u, indices !! k = Some i → updates !! k = Some u → u j = c) →
  sum_at i indices updates j = (INR (occurrences i indices) * c)%R.
Proof.
  unfold occurrences. revert updates.
  induction indices as [|i0 indices IH]; intros [|u updates] Hlen Hc;
    simpl in *; try lra; try discriminate.
  rewrite IH; [|lia|intros k u' Hk Hu; by apply (Hc (S k) u')].
  rewrite filter_cons. destruct (decide (i0 = i)) as [->|Hne].
  - rewrite (Hc 0 u) by done. rewrite length_cons, S_INR. lra.
  - lra.
Qed.

(** X1. The update raises exactly when the gradient does not have one slice
    per index or some index lies outside [var], [m] or [v]; on all other
    inputs it runs through. *)
Theorem update_runs_iff self grad indices s :
  is_Some (_apply_sparse_shared self grad indices scatter_add s) ↔
  length grad = length indices ∧
  ∀ i, i ∈ indices →
       i < length (st_m s) ∧ i < length (st_v s) ∧ i < length (st_var s).
Proof.
  split.
  - intros [[[] s'] Hrun].
    destruct (runs_well_shaped _ _ _ _ _ Hrun) as (Hlen & Hm & Hv & Hvar).
    split; [done|]. intros i Hi.
    rewrite Forall_forall in Hm, Hv, Hvar. auto.
  - intros [Hlen Hin]. apply well_shaped_runs.
    split; [done|]. repeat split; apply Forall_forall; intros i Hi;
      by apply Hin.
Qed.

(** X2. An update that runs through keeps the number of slices of [var],
    [m] and [v], so whatever gradient could be applied before can be applied
    again afterwards: training steps compose. *)
Theorem update_keeps_shapes self grad indices s :
  well_shaped s grad indices →
  ∃ s', _apply_sparse_shared self grad indices scatter_add s = Some (tt, s') ∧
    length (st_var s') = length (st_var s) ∧
    length (st_m s') = length (st_m s) ∧
    length (st_v s') = length (st_v s) ∧
    (∀ grad' indices', well_shaped s grad' indices' ↔
                       well_shaped s' grad' indices') ∧
    is_Some (_apply_sparse_shared self grad indices scatter_add s').
Proof.
  intros Hshape.
  destruct (well_shaped_runs self _ _ _ Hshape) as [[[] s'] Hrun].
  exists s'. split; [done|].
  apply _apply_sparse_shared_Some in Hrun
    as (m_t & v_t & gm & gv & var_t & Hm & Hv & _ & _ & Hvar & ->).
  apply scatter_add_rows_length in Hm, Hv, Hvar.
  unfold mul_scalar in Hm, Hv. rewrite length_fmap in Hm, Hv. simpl.
  assert (∀ grad' indices',
    well_shaped s grad' indices'
    ↔ well_shaped (Store var_t m_t v_t) grad' indices') as Hiff.
  { intros grad' indices'. unfold well_shaped. simpl.
    by rewrite Hm, Hv, Hvar. }
  split; [done|]. split; [done|]. split; [done|]. split; [exact Hiff|].
  by apply well_shaped_runs, Hiff.
Qed.

(** An update without gradient slices runs through on every store: it
    leaves [var] as it is and still decays both accumulators at every
    position. *)
Example update_without_gradient self s :
  _apply_sparse_shared self [] [] scatter_add s
  = Some (tt, Store (st_var s) (mul_scalar (st_m s) (_beta1_t self))
                (mul_scalar (st_v s) (_beta2_t self))).
Proof. reflexivity. Qed.

(** X3. With indices that repeat, every listed occurrence counts: [m] at a
    position receives [(1 - beta1)] times the sum of the gradient slices
    addressed to it, [v] receives [(1 - beta2)] times the sum of their
    squares, and [var] moves by the step of that position once per
    occurrence of the position in [indices]. *)
Theorem update_with_repeated_indices self grad indices s :
  well_shaped s grad indices →
  ∃ s', _apply_sparse_shared self grad indices scatter_add s = Some (tt, s') ∧
    (∀ i m_i, st_m s !! i = Some m_i →
       ∃ m_new, st_m s' !! i = Some m_new ∧
         ∀ j, m_new j
              = (_beta1_t self * m_i j
                 + (1 - _beta1_t self) * sum_at i indices grad j)%R) ∧
    (∀ i v_i, st_v s !! i = Some v_i →
       ∃ v_new, st_v s' !! i = Some v_new ∧
         ∀ j, v_new j
              = (_beta2_t self * v_i j
                 + (1 - _beta2_t self)
                   * sum_at i indices (mul grad grad) j)%R) ∧
    (∀ i var_i m_new v_new,
       st_var s !! i = Some var_i →
       st_m s' !! i = Some m_new → st_v s' !! i = Some v_new →
       ∃ var_new, st_var s' !! i = Some var_new ∧
         ∀ j, var_new j
              = (var_i j
                 + INR (occurrences i indices)
                   * (- _lr_t self * sqrt (1 - _beta2_power self)
                      / (1 - _beta1_power self) * m_new j
                      / (sqrt (v_new j) + _epsilon_t self)))%R).
Proof.
  intros Hshape.
  destruct (well_shaped_runs self _ _ _ Hshape) as [[[] s'] Hrun].
  exists s'. split; [done|].
  apply _apply_sparse_shared_Some in Hrun
    as (m_t & v_t & gm & gv & var_t & Hm & Hv & Hgm & Hgv & Hvar & ->).
  simpl. repeat split.
  - intros i m_i Hmi.
    destruct (scatter_add_rows_sum _ _ _ _ i (λ j, m_i j * _beta1_t self)%R Hm)
      as (m_new & Hm_new & Hsum).
    { by rewrite mul_scalar_lookup, Hmi. }
    exists m_new. split; [done|]. intros j.
    rewrite Hsum, sum_at_mul_scalar. ring.
  - intros i v_i Hvi.
    destruct (scatter_add_rows_sum _ _ _ _ i (λ j, v_i j * _beta2_t self)%R Hv)
      as (v_new & Hv_new & Hsum).
    { by rewrite mul_scalar_lookup, Hvi. }
    exists v_new. split; [done|]. intros j.
    rewrite Hsum, sum_at_mul_scalar. ring.
  - intros i var_i m_new v_new Hvari Hm_new Hv_new.
    destruct (scatter_add_rows_sum _ _ _ _ i var_i Hvar Hvari)
      as (var_new & Hvar_new & Hsum).
    exists var_new. split; [done|]. intros j. rewrite Hsum. f_equal.
    apply sum_at_constant.
    + unfold div, scalar_mul, add_scalar, tsqrt.
      rewrite length_zip_with, !length_fmap.
      rewrite (gather_length _ _ _ Hgm), (gather_length _ _ _ Hgv). lia.
    + intros k u Hk Hu.
      unfold div, scalar_mul, add_scalar, tsqrt in Hu.
      rewrite lookup_zip_with, !list_lookup_fmap in Hu.
      rewrite (gather_lookup _ _ _ _ _ Hgm Hk), Hm_new in Hu.
      rewrite (gather_lookup _ _ _ _ _ Hgv Hk), Hv_new in Hu.
      simpl in Hu. injection Hu as <-. unfold Rdiv. ring.
Qed.
End Update.

(** *** Concrete runs *)

Lemma update_keeps_shapes_witness :
  well_shaped Demo.s Demo.grad Demo.indices ∧
  ∃ s', _apply_sparse_shared Demo.self Demo.grad Demo.indices scatter_add Demo.s
        = Some (tt, s') ∧
    length (st_var s') = length (st_var Demo.s).
Proof.
  split.
  - unfold well_shaped; simpl; repeat split; repeat constructor.
  - destruct (update_keeps_shapes Demo.self Demo.grad Demo.indices Demo.s)
      as (s' & Hrun & Hlen & _).
    + unfold well_shaped; simpl; repeat split; repeat constructor.
    + exists s'. split; [exact Hrun|exact Hlen].
Defined.

Lemma update_with_repeated_indices_witness :
  well_shaped Demo.s [λ _, 1%R; λ _, 1%R] [0; 0] ∧
  ∃ s', _apply_sparse_shared Demo.self [λ _, 1%R; λ _, 1%R] [0; 0] scatter_add
          Demo.s = Some (tt, s') ∧
    ∀ i m_i, st_m Demo.s !! i = Some m_i →
      ∃ m_new, st_m s' !! i = Some m_new ∧
        ∀ j, m_new j
             = (_beta1_t Demo.self * m_i j
                + (1 - _beta1_t Demo.self)
                  * sum_at i [0%nat; 0%nat] [λ _, 1; λ _, 1] j)%R.
Proof.
  split.
  - unfold well_shaped; simpl; repeat split; repeat constructor.
  - destruct (update_with_repeated_indices Demo.self [λ _, 1%R; λ _, 1%R]
                [0; 0] Demo.s) as (s' & Hrun & Hm & _).
    + unfold well_shaped; simpl; repeat split; repeat constructor.
    + exists s'. split; [exact Hrun|exact Hm].
Defined.
End TfOptimizerMore.

(** ** More about the graph of the update *)

Module TfGraphMore.
Import TfOptimizer TfGraph TfGraphAccess TfGraphFacts.

(** X4. The operation the method returns groups the three updates: in every
    order in which the session may fire the operations, it fires after the
    scatter-add into the variable and after those into both accumulators. *)
Theorem group_fires_last sched :
  runnable update_graph [] sched = true →
  ∀ r u grp,
    has_op update_graph (ScatterAdd r) u →
    has_op update_graph Group grp →
    grp ∈ sched → fires_before sched u grp.
Proof.
  intros Hrun r u grp Hu Hgrp Hin.
  find_node Hgrp at grp. find_node Hu at u; by_input Hrun.
Qed.

Lemma group_fires_last_witness :
  runnable update_graph [] (program_order update_graph) = true ∧
  ∀ r u grp,
    has_op update_graph (ScatterAdd r) u →
    has_op update_graph Group grp →
    grp ∈ program_order update_graph →
    fires_before (program_order update_graph) u grp.
Proof.
  split; [vm_compute; reflexivity|].
  apply (group_fires_last (program_order update_graph)).
  vm_compute; reflexivity.
Defined.


(** The operations that touch a variable, found by running through the
    graph. *)
Lemma touches_elem g r id :
  touches g r id = true →
  id ∈ filter (λ i, touches g r i = true) (seq 0 (length g)).
Proof.
  intros H. apply list_elem_of_filter. split; [done|].
  apply elem_of_seq. split; [lia|]. simpl.
  unfold touches in H. destruct (g !! id) eqn:Hid; [|done].
  by eapply lookup_lt_Some.
Qed.

Lemma touching_update_graph r :
  filter (λ i, touches update_graph r i = true) (seq 0 (length update_graph))
  = match r with
    | SlotM => [27; 28; 29; 37]
    | SlotV => [34; 35; 36; 38]
    | Var => [44]
    end.
Proof. destruct r; vm_compute; reflexivity. Qed.

Ltac by_direct_input Hrun :=
  eapply (input_fires_before _ _ _ _ _ Hrun);
  [ assumption
  | rewrite update_graph_nodes; simpl; reflexivity
  | simpl; repeat constructor ].

(** Four operations, each an input of the next, fire in that order. *)
Lemma fires_before_chain g sched a b c d :
  runnable g [] sched = true →
  (b ∈ sched → fires_before sched a b) →
  (c ∈ sched → fires_before sched b c) →
  (d ∈ sched → fires_before sched c d) →
  ∀ x y, x ∈ [a; b; c; d] → y ∈ [a; b; c; d] →
    x < y → a < b → b < c → c < d → y ∈ sched → fires_before sched x y.
Proof.
  intros Hrun Hab Hbc Hcd x y Hx Hy Hxy Hlt1 Hlt2 Hlt3 Hin.
  pose proof (λ a b c, fires_before_trans _ _ _ a b c Hrun) as Htrans.
  pose proof (fires_before_elem_of sched) as Hel.
  assert (c ∈ sched → fires_before sched a c) as Hac.
  { intros Hc. eapply Htrans; [apply Hab; eapply Hel; by apply Hbc|by apply Hbc]. }
  assert (d ∈ sched → fires_before sched b d) as Hbd.
  { intros Hd. eapply Htrans; [apply Hbc; eapply Hel; by apply Hcd|by apply Hcd]. }
  assert (d ∈ sched → fires_before sched a d) as Had.
  { intros Hd. eapply Htrans; [apply Hac; eapply Hel; by apply Hcd|by apply Hcd]. }
  repeat (apply elem_of_cons in Hx as [->|Hx]);
    try (by apply elem_of_nil in Hx);
    repeat (apply elem_of_cons in Hy as [->|Hy]);
    try (by apply elem_of_nil in Hy);
    try lia; auto.
Qed.

(** X5. The operations that touch one variable never race: in every order
    in which the session may fire the operations, any two of them fire in
    the order in which the method created them.  For an accumulator that is
    the read for the decay, the decay assignment, the scatter-add and the
    gather. *)
Theorem same_variable_in_program_order sched :
  runnable update_graph [] sched = true →
  ∀ r a b,
    touches update_graph r a = true →
    touches update_graph r b = true →
    a < b → b ∈ sched → fires_before sched a b.
Proof.
  intros Hrun r a b Ha Hb Hlt Hin.
  apply touches_elem in Ha, Hb. rewrite touching_update_graph in Ha, Hb.
  destruct r.
  - apply list_elem_of_singleton in Ha, Hb. lia.
  - apply (fires_before_chain update_graph sched 27 28 29 37 Hrun);
      try done; try lia; intros H; by_direct_input Hrun.
  - apply (fires_before_chain update_graph sched 34 35 36 38 Hrun);
      try done; try lia; intros H; by_direct_input Hrun.
Qed.

Lemma same_variable_in_program_order_witness :
  runnable update_graph [] (program_order update_graph) = true ∧
  ∀ r a b,
    touches update_graph r a = true →
    touches update_graph r b = true →
    a < b → b ∈ program_order update_graph →
    fires_before (program_order update_graph) a b.
Proof.
  split; [vm_compute; reflexivity|].
  apply (same_variable_in_program_order (program_order update_graph)).
  vm_compute; reflexivity.
Defined.
End TfGraphMore.

(** ** More about the model functions: errors, what each mode leaves alone *)

Module TfModelFnMore.
Import TfModelFn TfModelFnOps TfModelFnFacts.

Section ModelFn.
Context {Params EndPoints Margin : Type}.
Context (margin : Params → Margin).
Context (network : string → gmap string (node Margin) → Params → bool
                   → Tf Margin (node Margin * EndPoints)).
Context (get_learning_rate_func : Tf Margin (node Margin)).
Context (scope_name features_embedding_key features_filename_key : string).
Context (optimizer_type : OptimizerType) (use_l2_normalize : bool).

Abbreviation node := (node Margin).
Abbreviation Graph := (Graph Margin).
Abbreviation triplet_model_func :=
  (tf_triplet_loss_model_fn margin network get_learning_rate_func scope_name
     features_embedding_key features_filename_key optimizer_type
     use_l2_normalize).
Abbreviation softmax_model_func :=
  (tf_softmax_model_fn network get_learning_rate_func scope_name
     features_filename_key optimizer_type).
Abbreviation final_embeddings := (final_embeddings use_l2_normalize).

Implicit Types (features : gmap string node) (labels : option node)
  (params : Params) (g : Graph) (embeddings logits : node).

(** X7. In [PREDICT] mode, [features] without the file-name key make either
    model function raise [KeyError] for that key, after the network has
    run. *)
Theorem predict_without_filename_raises features labels params g r g1 :
  network scope_name features params false g = inr (r, g1) →
  features !! features_filename_key = None →
  triplet_model_func features labels PREDICT params g
    = inl (KeyError features_filename_key) ∧
  softmax_model_func features labels PREDICT params g
    = inl (KeyError features_filename_key).
Proof.
  destruct r as [out ep]. intros Hnet Hkey. split.
  - destruct (triplet_PREDICT_run margin network get_learning_rate_func
                scope_name features_embedding_key features_filename_key
                optimizer_type use_l2_normalize features labels params g
                _ _ _ Hnet) as (g2 & Hrun & _).
    by rewrite Hkey in Hrun.
  - destruct (softmax_PREDICT_run network get_learning_rate_func scope_name
                features_filename_key optimizer_type features labels params g
                _ _ _ Hnet) as (g2 & Hrun & _).
    by rewrite Hkey in Hrun.
Qed.

(** X8. Outside [PREDICT] mode, [labels=None] makes either model function
    raise [ValueError] once the network has run. *)
Theorem no_labels_outside_predict_raises features params g m r g1 :
  m ≠ PREDICT →
  network scope_name features params (bool_decide (m = TRAIN)) g
    = inr (r, g1) →
  triplet_model_func features None m params g = inl ValueError ∧
  softmax_model_func features None m params g = inl ValueError.
Proof.
  destruct r as [out ep]. intros Hm Hnet.
  unfold tf_triplet_loss_model_fn, tf_softmax_model_fn, bind.
  destruct m; [| |done]; simpl in *; rewrite Hnet; simpl;
    destruct use_l2_normalize; done.
Qed.

(** X9. Either model function calls the network once, on the graph it is
    given, with [is_training] set exactly in [TRAIN] mode: it does the same
    with any other network that does the same on that one call, and when
    the call raises, the model function raises the same. *)
Theorem network_called_once features labels params g m
    (network' : string → gmap string node → Params → bool
                → Tf Margin (node * EndPoints)) :
  (network' scope_name features params (bool_decide (m = TRAIN)) g
   = network scope_name features params (bool_decide (m = TRAIN)) g →
   tf_triplet_loss_model_fn margin network' get_learning_rate_func scope_name
     features_embedding_key features_filename_key optimizer_type
     use_l2_normalize features labels m params g
   = triplet_model_func features labels m params g ∧
   tf_softmax_model_fn network' get_learning_rate_func scope_name
     features_filename_key optimizer_type features labels m params g
   = softmax_model_func features labels m params g) ∧
  (∀ e,
     network scope_name features params (bool_decide (m = TRAIN)) g = inl e →
     triplet_model_func features labels m params g = inl e ∧
     softmax_model_func features labels m params g = inl e).
Proof.
  split.
  - intros Hsame.
    unfold tf_triplet_loss_model_fn, tf_softmax_model_fn, bind.
    destruct m; simpl in *; by rewrite Hsame.
  - intros e Hraise.
    unfold tf_triplet_loss_model_fn, tf_softmax_model_fn, bind.
    destruct m; simpl in *; by rewrite Hraise.
Qed.

(** X10. Outside [TRAIN] mode neither model function calls
    [get_learning_rate_func] or looks at [optimizer_type]: the outcome is the
    same for any other learning-rate function, one that raises included,
    and any other optimizer type. *)
Theorem learning_rate_only_in_train features labels params g m
    (get_learning_rate_func' : Tf Margin node)
    (optimizer_type' : OptimizerType) :
  m ≠ TRAIN →
  tf_triplet_loss_model_fn margin network get_learning_rate_func' scope_name
    features_embedding_key features_filename_key optimizer_type'
    use_l2_normalize features labels m params g
  = triplet_model_func features labels m params g ∧
  tf_softmax_model_fn network get_learning_rate_func' scope_name
    features_filename_key optimizer_type' features labels m params g
  = softmax_model_func features labels m params g.
Proof.
  intros Hm.
  unfold tf_triplet_loss_model_fn, tf_softmax_model_fn, bind.
  destruct m; [done| |]; simpl;
    destruct (network _ _ _ _ _) as [e|[[out ep] g1]]; simpl; try done;
    destruct use_l2_normalize, labels; simpl; try done;
    split; repeat case_match; done.
Qed.

(** X11. The [PREDICT] predictions of [tf_triplet_loss_model_fn] hold the
    file name under [features_filename_key] in every case, and the
    embeddings under [features_embedding_key] only when the two keys differ:
    with one key for both, the file name is all the predictions hold. *)
Theorem triplet_predictions_lookup features labels params g filename
    embeddings end_points g1 :
  network scope_name features params false g
    = inr ((embeddings, end_points), g1) →
  features !! features_filename_key = Some filename →
  ∃ spec g2 p,
    triplet_model_func features labels PREDICT params g = inr (spec, g2) ∧
    predictions spec = Some p ∧
    p !! features_filename_key = Some filename ∧
    (features_embedding_key ≠ features_filename_key →
     p !! features_embedding_key = Some (final_embeddings embeddings)) ∧
    (features_embedding_key = features_filename_key →
     p = {[ features_filename_key := filename ]}).
Proof.
  intros Hnet Hkey.
  destruct (triplet_PREDICT_run margin network get_learning_rate_func
              scope_name features_embedding_key features_filename_key
              optimizer_type use_l2_normalize features labels params g
              _ _ _ Hnet) as (g2 & Hrun & _).
  rewrite Hkey in Hrun. eexists _, g2, _.
  split; [exact Hrun|]. simpl. split; [done|].
  split; [by rewrite lookup_insert_eq|]. split.
  - intros Hne. rewrite lookup_insert_ne by done. by rewrite lookup_insert_eq.
  - intros ->. by rewrite insert_insert_eq.
Qed.

(** X12. The [PREDICT] predictions of [tf_softmax_model_fn] hold the argmax
    of the logits along axis 1 under ["class"], their softmax under
    ["prob"], and under ["filename"] what [features] hold under
    [features_filename_key]. *)
Theorem softmax_predictions_lookup features labels params g filename
    logits end_points g1 :
  network scope_name features params false g
    = inr ((logits, end_points), g1) →
  features !! features_filename_key = Some filename →
  ∃ spec g2 p,
    softmax_model_func features labels PREDICT params g = inr (spec, g2) ∧
    predictions spec = Some p ∧
    p !! "class" = Some (tf_argmax logits 1) ∧
    p !! "prob" = Some (tf_nn_softmax logits) ∧
    p !! "filename" = Some filename.
Proof.
  intros Hnet Hkey.
  destruct (softmax_PREDICT_run network get_learning_rate_func scope_name
              features_filename_key optimizer_type features labels params g
              _ _ _ Hnet) as (g2 & Hrun & _).
  rewrite Hkey in Hrun. eexists _, g2, _.
  split; [exact Hrun|]. simpl. split; [done|].
  repeat split; by simplify_map_eq.
Qed.

(** X13. Without [use_l2_normalize], [tf_triplet_loss_model_fn] creates no
    normalisation: the [PREDICT] predictions and the triplet loss take the
    embeddings as the network returned them. *)
Theorem embeddings_pass_through_without_l2 features filename l params g
    embeddings end_points g1 :
  use_l2_normalize = false →
  features !! features_filename_key = Some filename →
  network scope_name features params false g
    = inr ((embeddings, end_points), g1) →
  (∀ labels, ∃ spec g2,
     triplet_model_func features labels PREDICT params g = inr (spec, g2) ∧
     predictions spec
     = Some (<[features_filename_key := filename]>
               (<[features_embedding_key := embeddings]> ∅)) ∧
     g_ops g2
     = g_ops g1
       ++ [tf_norm embeddings 1; tf_reduce_mean (tf_norm embeddings 1);
           tf_summary_scalar_op "embedding_mean_norm"
             (tf_reduce_mean (tf_norm embeddings 1))]) ∧
  (∃ spec g2,
     triplet_model_func features (Some l) EVAL params g = inr (spec, g2) ∧
     loss spec
     = Some (batch_hard_triplet_loss (tf_cast l int64) embeddings
               (margin params) false)).
Proof.
  intros Hl2 Hkey Hnet. split.
  - intros labels.
    destruct (triplet_PREDICT_run margin network get_learning_rate_func
                scope_name features_embedding_key features_filename_key
                optimizer_type use_l2_normalize features labels params g
                _ _ _ Hnet) as (g2 & Hrun & Hops & _).
    rewrite Hkey in Hrun.
    unfold TfModelFn.triplet_prefix_ops, TfModelFn.final_embeddings in *.
    rewrite Hl2 in Hrun, Hops |- *. simpl in Hrun, Hops. by eexists _, _.
  - destruct (triplet_EVAL_run margin network get_learning_rate_func
                scope_name features_embedding_key features_filename_key
                optimizer_type use_l2_normalize features l params g
                _ _ _ Hnet) as (g2 & Hrun & _).
    unfold TfModelFn.final_embeddings in *.
    rewrite Hl2 in Hrun |- *. by eexists _, _.
Qed.

(** X14. In [TRAIN] mode the train op of either model function has as
    control inputs the [UPDATE_OPS] collection and as global step the
    graph's global step, both as they stand once the learning-rate function
    has run; that collection is also what is handed to [logger.debug], and
    the train op is the last operation created. *)
Theorem train_op_after_update_ops features l params g
    (model_func : gmap string node → option node → ModeKeys → Params
                  → Tf Margin (EstimatorSpec Margin)) :
  model_func = triplet_model_func ∨ model_func = softmax_model_func →
  network_runs network scope_name →
  learning_rate_runs get_learning_rate_func →
  ∃ spec g2 gb lr ga loss_op,
    model_func features (Some l) TRAIN params g = inr (spec, g2) ∧
    get_learning_rate_func gb = inr (lr, ga) ∧
    loss spec = Some loss_op ∧
    train_op spec
    = Some (minimize_op optimizer_type lr loss_op (g_global_step ga)
              (g_update_ops ga)) ∧
    g_debug g2 = g_debug ga ++ [g_update_ops ga] ∧
    g_ops g2
    = g_ops ga
      ++ [minimize_op optimizer_type lr loss_op (g_global_step ga)
            (g_update_ops ga)].
Proof.
  intros Hfn Hnet Hlr.
  destruct (Hnet features params true g) as ([out ep] & g1 & Htrue).
  destruct Hfn as [-> | ->].
  - destruct (triplet_TRAIN_run margin network get_learning_rate_func
                scope_name features_embedding_key features_filename_key
                optimizer_type use_l2_normalize features l params g
                _ _ _ Hlr Htrue)
      as (gb & lr & ga & g2 & Hga & _ & Hrun & Hops & Hdebug).
    by eexists _, g2, gb, lr, ga, _.
  - destruct (softmax_TRAIN_run network get_learning_rate_func scope_name
                features_filename_key optimizer_type features l params g
                _ _ _ Hlr Htrue)
      as (gb & lr & ga & g2 & Hga & _ & Hrun & Hops & Hdebug).
    by eexists _, g2, gb, lr, ga, _.
Qed.

(** X15. In [TRAIN] mode [tf_triplet_loss_model_fn] creates the mean-norm
    metric, which it builds before it looks at the mode again, and then
    returns a spec without metrics: given a learning-rate function that only
    adds to the graph, the metric is among the operations of the returned
    graph that were created after the network. *)
Theorem metric_created_in_train features l params g out end_points g1 :
  learning_rate_extends get_learning_rate_func →
  network scope_name features params true g = inr ((out, end_points), g1) →
  ∃ spec g2 created,
    triplet_model_func features (Some l) TRAIN params g = inr (spec, g2) ∧
    g_ops g2 = g_ops g1 ++ created ∧
    tf_metrics_mean (tf_reduce_mean (tf_norm out 1)) ∈ created ∧
    eval_metric_ops spec = None.
Proof.
  intros Hlr Hnet.
  destruct (triplet_TRAIN_extends margin network get_learning_rate_func
              scope_name features_embedding_key features_filename_key
              optimizer_type use_l2_normalize features l params g
              _ _ _ Hlr Hnet)
    as (lr & gs & ci & later & more & g2 & Hrun & Hops & _).
  eexists _, g2, _. split; [exact Hrun|]. split; [exact Hops|].
  split; [|done]. unfold mean_norm. rewrite !elem_of_app. set_solver.
Qed.

(** X16. A model function that returns in [PREDICT] mode, and
    [tf_softmax_model_fn] also in [EVAL] mode, has left the [UPDATE_OPS]
    collection, the global step and the debug log as the network left them
    and has added no loss summary: [tf_triplet_loss_model_fn] has added the
    mean-norm summary and nothing else, [tf_softmax_model_fn] no summary at
    all. *)
Theorem collections_untouched_outside_train features labels params g
    out end_points g1 :
  network scope_name features params false g = inr ((out, end_points), g1) →
  (∀ spec g2,
     triplet_model_func features labels PREDICT params g = inr (spec, g2) →
     g_update_ops g2 = g_update_ops g1 ∧
     g_global_step g2 = g_global_step g1 ∧
     g_debug g2 = g_debug g1 ∧
     g_summaries g2
     = g_summaries g1
       ++ [("embedding_mean_norm", tf_reduce_mean (tf_norm out 1))]) ∧
  (∀ m spec g2,
     m ≠ TRAIN →
     softmax_model_func features labels m params g = inr (spec, g2) →
     g_update_ops g2 = g_update_ops g1 ∧
     g_global_step g2 = g_global_step g1 ∧
     g_debug g2 = g_debug g1 ∧
     g_summaries g2 = g_summaries g1).
Proof.
  intros Hnet.
  unfold tf_triplet_loss_model_fn, tf_softmax_model_fn, bind, getitem.
  split.
  - intros spec g2 Hrun. simpl in Hrun. rewrite Hnet in Hrun. simpl in Hrun.
    destruct use_l2_normalize; simpl in Hrun;
      unfold ret, raise in Hrun; repeat case_match; simplify_eq; done.
  - intros m spec g2 Hm Hrun.
    destruct m; [done| |]; simpl in Hrun; rewrite Hnet in Hrun;
      simpl in Hrun; destruct labels; simpl in Hrun;
      unfold ret, raise in Hrun; repeat case_match; simplify_eq; done.
Qed.
End ModelFn.

(** *** Concrete runs *)

Lemma predict_without_filename_raises_witness :
  tf_triplet_loss_model_fn (λ p : nat, p) Demo.network
    Demo.get_learning_rate_func "net" "embedding" "path" adam false
    Demo.features None PREDICT 0 Demo.g = inl (KeyError "path") ∧
  tf_softmax_model_fn Demo.network Demo.get_learning_rate_func "net" "path"
    adam Demo.features None PREDICT 0 Demo.g = inl (KeyError "path").
Proof.
  apply (predict_without_filename_raises (λ p : nat, p) Demo.network
           Demo.get_learning_rate_func "net" "embedding" "path" adam false
           Demo.features None 0 Demo.g (given "net", tt)
           {| g_ops := [given "net"]; g_summaries := []; g_update_ops := [];
              g_global_step := Some (given "global_step"); g_debug := [] |}).
  - reflexivity.
  - reflexivity.
Defined.

Lemma no_labels_outside_predict_raises_witness :
  tf_triplet_loss_model_fn (λ p : nat, p) Demo.network
    Demo.get_learning_rate_func "net" "embedding" "filename" adam true
    Demo.features None TRAIN 0 Demo.g = inl ValueError ∧
  tf_softmax_model_fn Demo.network Demo.get_learning_rate_func "net"
    "filename" adam Demo.features None TRAIN 0 Demo.g = inl ValueError.
Proof.
  apply (no_labels_outside_predict_raises (λ p : nat, p) Demo.network
           Demo.get_learning_rate_func "net" "embedding" "filename" adam true
           Demo.features 0 Demo.g TRAIN (given "net", tt)
           {| g_ops := [given "net"]; g_summaries := []; g_update_ops := [];
              g_global_step := Some (given "global_step"); g_debug := [] |}).
  - discriminate.
  - reflexivity.
Defined.

Lemma learning_rate_only_in_train_witness :
  tf_triplet_loss_model_fn (λ p : nat, p) Demo.network (raise ValueError)
    "net" "embedding" "filename" sgd true Demo.features
    (Some (given "labels")) EVAL 0 Demo.g
  = tf_triplet_loss_model_fn (λ p : nat, p) Demo.network
      Demo.get_learning_rate_func "net" "embedding" "filename" adam true
      Demo.features (Some (given "labels")) EVAL 0 Demo.g ∧
  tf_softmax_model_fn Demo.network (raise ValueError) "net" "filename" sgd
    Demo.features (Some (given "labels")) EVAL 0 Demo.g
  = tf_softmax_model_fn Demo.network Demo.get_learning_rate_func "net"
      "filename" adam Demo.features (Some (given "labels")) EVAL 0 Demo.g.
Proof.
  apply (learning_rate_only_in_train (λ p : nat, p) Demo.network
           Demo.get_learning_rate_func "net" "embedding" "filename" adam true
           Demo.features (Some (given "labels")) 0 Demo.g EVAL
           (raise ValueError) sgd).
  discriminate.
Defined.

Lemma triplet_predictions_lookup_witness :
  ∃ spec g2 p,
    tf_triplet_loss_model_fn (λ p : nat, p) Demo.network
      Demo.get_learning_rate_func "net" "filename" "filename" adam false
      Demo.features None PREDICT 0 Demo.g = inr (spec, g2) ∧
    predictions spec = Some p ∧
    p !! "filename" = Some (given "filename") ∧
    ("filename" ≠ "filename" → p !! "filename" = Some (given "net")) ∧
    ("filename" = "filename" → p = {[ "filename" := given "filename" ]}).
Proof.
  apply (triplet_predictions_lookup (λ p : nat, p) Demo.network
           Demo.get_learning_rate_func "net" "filename" "filename" adam false
           Demo.features None 0 Demo.g (given "filename") (given "net") tt
           {| g_ops := [given "net"]; g_summaries := []; g_update_ops := [];
              g_global_step := Some (given "global_step"); g_debug := [] |}).
  - reflexivity.
  - reflexivity.
Defined.

Lemma softmax_predictions_lookup_witness :
  ∃ spec g2 p,
    tf_softmax_model_fn Demo.network Demo.get_learning_rate_func "net"
      "image" adam Demo.features None PREDICT 0 Demo.g = inr (spec, g2) ∧
    predictions spec = Some p ∧
    p !! "class" = Some (tf_argmax (given "net") 1) ∧
    p !! "prob" = Some (tf_nn_softmax (given "net")) ∧
    p !! "filename" = Some (given "image").
Proof.
  apply (softmax_predictions_lookup Demo.network Demo.get_learning_rate_func
           "net" "image" adam Demo.features None 0 Demo.g (given "image")
           (given "net") tt
           {| g_ops := [given "net"]; g_summaries := []; g_update_ops := [];
              g_global_step := Some (given "global_step"); g_debug := [] |}).
  - reflexivity.
  - reflexivity.
Defined.

Lemma embeddings_pass_through_without_l2_witness :
  ∃ spec g2,
    tf_triplet_loss_model_fn (λ p : nat, p) Demo.network
      Demo.get_learning_rate_func "net" "embedding" "filename" adam false
      Demo.features (Some (given "labels")) EVAL 5 Demo.g = inr (spec, g2) ∧
    loss spec
    = Some (batch_hard_triplet_loss (tf_cast (given "labels") int64)
              (given "net") 5 false).
Proof.
  apply (embeddings_pass_through_without_l2 (λ p : nat, p) Demo.network
           Demo.get_learning_rate_func "net" "embedding" "filename" adam false
           Demo.features (given "filename") (given "labels") 5 Demo.g
           (given "net") tt
           {| g_ops := [given "net"]; g_summaries := []; g_update_ops := [];
              g_global_step := Some (given "global_step"); g_debug := [] |}).
  - reflexivity.
  - reflexivity.
  - reflexivity.
Defined.

Lemma train_op_after_update_ops_witness :
  ∃ spec g2 gb lr ga loss_op,
    tf_softmax_model_fn Demo.network Demo.get_learning_rate_func "net"
      "filename" sgd Demo.features (Some (given "labels")) TRAIN 0 Demo.g
    = inr (spec, g2) ∧
    Demo.get_learning_rate_func gb = inr (lr, ga) ∧
    loss spec = Some loss_op ∧
    train_op spec
    = Some (minimize_op sgd lr loss_op (g_global_step ga) (g_update_ops ga)) ∧
    g_debug g2 = g_debug ga ++ [g_update_ops ga] ∧
    g_ops g2
    = g_ops ga
      ++ [minimize_op sgd lr loss_op (g_global_step ga) (g_update_ops ga)].
Proof.
  apply (train_op_after_update_ops (λ p : nat, p) Demo.network
           Demo.get_learning_rate_func "net" "embedding" "filename" sgd false
           Demo.features (given "labels") 0 Demo.g).
  - right. reflexivity.
  - intros features params is_training g. eexists _, _. reflexivity.
  - intros g. eexists _, _. reflexivity.
Defined.

Lemma metric_created_in_train_witness :
  ∃ spec g2 created,
    tf_triplet_loss_model_fn (λ p : nat, p) Demo.network
      Demo.get_learning_rate_func "net" "embedding" "filename" adam false
      Demo.features (Some (given "labels")) TRAIN 0 Demo.g = inr (spec, g2) ∧
    g_ops g2 = [given "net"] ++ created ∧
    tf_metrics_mean (tf_reduce_mean (tf_norm (given "net") 1)) ∈ created ∧
    eval_metric_ops spec = None.
Proof.
  apply (metric_created_in_train (λ p : nat, p) Demo.network
           Demo.get_learning_rate_func "net" "embedding" "filename" adam
           false Demo.features (given "labels") 0 Demo.g (given "net") tt
           {| g_ops := [given "net"]; g_summaries := [];
              g_update_ops := [];
              g_global_step := Some (given "global_step");
              g_debug := [] |}).
  - intros g. eexists _, _. split; [reflexivity|]. split; reflexivity.
  - reflexivity.
Defined.

Lemma collections_untouched_outside_train_witness :
  ∃ spec g2,
    tf_softmax_model_fn Demo.network Demo.get_learning_rate_func "net"
      "filename" adam Demo.features (Some (given "labels")) EVAL 0 Demo.g
    = inr (spec, g2) ∧
    g_update_ops g2 = [] ∧
    g_global_step g2 = Some (given "global_step") ∧
    g_debug g2 = [] ∧
    g_summaries g2 = [].
Proof.
  eexists _, _.
  split; [unfold tf_softmax_model_fn, bind; simpl; reflexivity|].
  destruct (collections_untouched_outside_train (λ p : nat, p) Demo.network
              Demo.get_learning_rate_func "net" "embedding" "filename" adam
              false Demo.features (Some (given "labels")) 0 Demo.g
              (given "net") tt
              {| g_ops := [given "net"]; g_summaries := [];
                 g_update_ops := [];
                 g_global_step := Some (given "global_step");
                 g_debug := [] |}) as [_ H].
  - reflexivity.
  - eapply (H EVAL); [discriminate|].
    unfold tf_softmax_model_fn, bind; simpl; reflexivity.
Defined.
End TfModelFnMore.
